(** * Mcro: type identities, type-erased values and composable objects

    A shallow embedding of
    - [Mcro/Inheritance.h]  ([ForEachExplicitBase]),
    - [Mcro/TypeInfo.h]     ([FType]),
    - [Mcro/Any.h], [Mcro/Any.cpp]                 ([FAny]),
    - [Mcro/Composition.h], [Mcro/Composition.cpp] ([IComposable]),
    together with the properties of these that the specification states.

    Conventions of the embedding.
    - A C++ type is a [CppType]: what the templates can observe of it at
      compile time (its name, its hash, its [Bases] member alias when it
      has one, and the concepts it satisfies).  Types are taken decayed.
    - A pointer is an address in [Z]; [nullptr] is [0].
    - [uint64] type hashes are [N]; they are only ever compared.
    - Code that can terminate the process ([checkf], [ASSERT_CRASH]) or
      call back into user code runs in the monad [M]: a state monad over
      the [World] (allocator and the trace of calls into user code) whose
      result is either [Ok] or [Fatal] with the message.  The checks are
      taken as compiled in.
    - A [TMap] is a finite map read by key; where the code walks one,
      the order its keys were added in is kept beside it, and the walk
      follows that order.
    - A closure is the environment its lambda captured; each closure
      member is only ever bound to one lambda, which the function named
      [..._lambda] embeds.
    - The member functions of components ([OnCreatedAt], [OnCopiedAt],
      [OnMovedAt]) are user code: a call is recorded in the trace with
      its receiver and arguments, and is assumed to return without
      touching the composable.  Facilities and [OnComponentAdded] are
      user code too, and are arbitrary functions on the world. *)

From stdpp Require Import gmap strings list fin_maps.
From Stdlib Require Import ZArith.

#[local] Open Scope Z_scope.

(** ** Compile-time view of a C++ type *)

Record TypeTraits := {
  (** [CCopyConstructible<T>] *)
  CCopyConstructible : bool;
  (** [CCompatibleExplicitComponent<T, Self>]: derives from [IComponent]
      and has [OnCreatedAt(Self&)] *)
  CCompatibleExplicitComponent : bool;
  (** [t.OnCopiedAt(parent, from)] is well formed *)
  HasOnCopiedAt : bool;
  (** [t.OnMovedAt(parent)] is well formed *)
  HasOnMovedAt : bool
}.

#[warnings="-register-all"]
Inductive CppType := CppTypeDecl {
  (** [TTypeName<T>] *)
  TTypeName : string;
  (** [TTypeHash<T>] *)
  TTypeHash : N;
  (** [typename T::Bases], when the type declares it *)
  Bases : option (list CppType);
  Traits : TypeTraits
}.

(** [concept CHasBases = CIsTypeList<typename T::Bases>] *)
Definition CHasBases (T : CppType) : bool :=
  match Bases T with Some _ => true | None => false end.

Definition CCopyAwareComponent (T : CppType) : bool :=
  CCompatibleExplicitComponent (Traits T) && HasOnCopiedAt (Traits T).

Definition CMoveAwareComponent (T : CppType) : bool :=
  CCompatibleExplicitComponent (Traits T) && HasOnMovedAt (Traits T).

Module Inheritance.

(** The types [ForEachExplicitBase<T>] instantiates its function with, in
    call order: [ForEachExplicitBase_Body<B>] calls the function with [B]
    and then, when [CHasBases<B>], walks [B::Bases], before the fold
    expression moves on to the next listed base. *)
Fixpoint ExplicitBases (T : CppType) : list CppType :=
  match Bases T with
  | None => []
  | Some bases =>
      (fix Impl (l : list CppType) : list CppType :=
         match l with
         | [] => []
         | B :: l' => (B :: ExplicitBases B) ++ Impl l'
         end) bases
  end.

(** [ForEachExplicitBase<T>(function)], the function acting on a state. *)
Definition ForEachExplicitBase {S : Type}
    (T : CppType) (function : CppType → S → S) (s : S) : S :=
  foldl (λ acc B, function B acc) s (ExplicitBases T).

End Inheritance.
Import Inheritance.

(** ** TypeInfo.h *)

Module TypeInfo.

Record FType := {
  Name : string;
  Hash : N;
  BaseTypeHashes : list N;
  BaseCount : Z
}.

Definition MaxBaseCount : Z := 64.

(** [constexpr FType() {}] *)
Definition FType_default : FType :=
  {| Name := EmptyString; Hash := 0%N;
     BaseTypeHashes := replicate (Z.to_nat MaxBaseCount) 0%N;
     BaseCount := 0 |}.

(** [int32] arithmetic *)
Definition int32_wrap (z : Z) : Z := (z + 2 ^ 31) `mod` 2 ^ 32 - 2 ^ 31.

(** A store into a C array: [None] when the index is outside of it. *)
Definition array_store (arr : list N) (i : Z) (v : N) : option (list N) :=
  if decide (0 ≤ i < Z.of_nat (length arr))
  then Some (<[Z.to_nat i := v]> arr)
  else None.

(** The lambda of the constructor, [this] being the captured state. *)
Definition FType_ctor_lambda (Base : CppType) (self : FType) : option FType :=
  if decide (BaseCount self >= MaxBaseCount) then Some self
  else
    arr ← array_store (BaseTypeHashes self) (BaseCount self) (TTypeHash Base);
    Some {| Name := Name self; Hash := Hash self;
            BaseTypeHashes := arr;
            BaseCount := int32_wrap (BaseCount self + 1) |}.

(** [FType(TTag<T>&&)]; [None] is a store outside of [BaseTypeHashes]. *)
Definition FType_ctor (T : CppType) : option FType :=
  let init := {| Name := TTypeName T; Hash := TTypeHash T;
                 BaseTypeHashes := BaseTypeHashes FType_default;
                 BaseCount := 0 |} in
  if CHasBases T
  then ForEachExplicitBase T (λ Base acc, acc ≫= FType_ctor_lambda Base)
                           (Some init)
  else Some init.

(** [constexpr FType TTypeOf = FType(FType::TTag<T>())] *)
Definition TTypeOf (T : CppType) : FType :=
  default FType_default (FType_ctor T).

(** [begin()] .. [end()] *)
Definition FType_range (t : FType) : list N :=
  take (Z.to_nat (BaseCount t)) (BaseTypeHashes t).

Definition FType_IsValid (t : FType) : bool := negb (Hash t =? 0)%N.

Definition IsCompatibleWith (self other : FType) : bool :=
  if (Hash self =? Hash other)%N then true
  else if existsb (λ base, (base =? Hash self)%N) (FType_range other) then true
  else if existsb (λ base, (base =? Hash other)%N) (FType_range self) then true
  else false.

(** [operator ==] *)
Definition FType_eqb (left right : FType) : bool := (Hash left =? Hash right)%N.

(** [GetTypeHash(FType const&)] *)
Definition GetTypeHash (self : FType) : N :=
  N.lxor (Hash self `mod` 2 ^ 32)%N (N.shiftr (Hash self) 32 `mod` 2 ^ 32)%N.

End TypeInfo.
Import TypeInfo.

(** ** The world the code runs in *)

Abbreviation ptr := Z (only parsing).
Abbreviation nullptr := 0 (only parsing).

(** Calls that leave the modelled code.  The class a member function
    belongs to is given by its type hash. *)
Inductive Event :=
  (** [new T(object)] with [object] at [from] returned [p]: the copy
      constructor of [T] ran *)
  | EvCopyConstructed (T : N) (from p : ptr)
  (** [delete p] *)
  | EvDeleted (p : ptr)
  (** [self->OnCreatedAt(parent)] *)
  | EvOnCreatedAt (T : N) (self parent : ptr)
  (** [self->OnCopiedAt(parent, object)] with [object] at [from] *)
  | EvOnCopiedAt (T : N) (self parent from : ptr)
  (** [self->OnMovedAt(parent)] *)
  | EvOnMovedAt (T : N) (self parent : ptr).

Record World := {
  (** the next address [operator new] hands out *)
  NextAlloc : positive;
  Trace : list Event
}.

Inductive Result (A : Type) :=
  | Ok (a : A) (w : World)
  | Fatal (message : string).
Arguments Ok {A} a w.
Arguments Fatal {A} message.

Definition M (A : Type) : Type := World → Result A.

Definition ret {A} (a : A) : M A := λ w, Ok a w.

Definition bind {A B} (m : M A) (k : A → M B) : M B :=
  λ w, match m w with
       | Ok a w' => k a w'
       | Fatal message => Fatal message
       end.

Notation "'let*' x ':=' m 'in' k" := (bind m (λ x, k))
  (at level 10, x name, m at level 100, k at level 200).
Notation "'do' m 'then' k" := (bind m (λ _, k))
  (at level 10, m at level 100, k at level 200).

Definition fatal {A} (message : string) : M A := λ _, Fatal message.

(** A call into code that cannot terminate the process by itself. *)
Definition lift {A} (f : World → A * World) : M A :=
  λ w, let '(a, w') := f w in Ok a w'.

Definition emit (e : Event) : M unit :=
  λ w, Ok tt {| NextAlloc := NextAlloc w; Trace := Trace w ++ [e] |}.

(** [for (auto const& x : l) body(x);] *)
Fixpoint for_each {A} (l : list A) (body : A → M unit) : M unit :=
  match l with
  | [] => ret tt
  | x :: l' => do body x then for_each l' body
  end.

(** [checkf(condition, message)] and
    [ASSERT_CRASH(condition, ->WithMessageF(message))] *)
Definition ASSERT_CRASH (condition : bool) (message : string) : M unit :=
  if condition then ret tt else fatal message.

(** The message [SubmitError] gives the error of an [ASSERT_CRASH(condition)]
    that sets none of its own (AssertMacros.cpp); the text of the condition
    is the code context of the error, not its message. *)
Definition DefaultAssertionMessage : string := "Program has hit an assertion".

Definition is_fatal {A} (r : Result A) : Prop :=
  match r with Fatal _ => True | Ok _ _ => False end.

(** ** Any.h, Any.cpp *)

Module Any.

(** [TAnyTypeFacilities<T>]: user code, acting on the world. *)
Record TAnyTypeFacilities := {
  Fac_Destruct : ptr → World → World;
  Fac_CopyConstruct : ptr → World → ptr * World
}.

(** [operator new]: a fresh address, never null *)
Definition allocate (w : World) : ptr * World :=
  (Z.pos (NextAlloc w),
   {| NextAlloc := Pos.succ (NextAlloc w); Trace := Trace w |}).

Definition record (e : Event) (w : World) : World :=
  {| NextAlloc := NextAlloc w; Trace := Trace w ++ [e] |}.

(** the default member initializers of [TAnyTypeFacilities<T>] *)
Definition DefaultFacilities (T : CppType) : TAnyTypeFacilities := {|
  Fac_Destruct := λ object w, record (EvDeleted object) w;
  Fac_CopyConstruct := λ object w,
    if CCopyConstructible (Traits T)
    then let '(p, w') := allocate w in
         (p, record (EvCopyConstructed (TTypeHash T) object p) w')
    else (nullptr, w)
|}.

(** [TSet<FType>]: elements are told apart by [operator ==] of [FType] *)
Definition TSet_Contains (s : list FType) (t : FType) : bool :=
  existsb (λ e, FType_eqb e t) s.

Definition TSet_Add (s : list FType) (t : FType) : list FType :=
  if TSet_Contains s t
  then (λ e, if FType_eqb e t then t else e) <$> s
  else s ++ [t].

(** What the two lambdas of the constructor capture: the type they
    were instantiated for and a copy of the facilities. *)
Record FAnyLambda := {
  cap_T : CppType;
  cap_facilities : TAnyTypeFacilities
}.

Record FAny := {
  Storage : ptr;
  MainType : FType;
  Destruct : option FAnyLambda;
  CopyConstruct : option FAnyLambda;
  ValidTypes : list FType
}.

(** [FORCEINLINE FAny() {}] *)
Definition FAny_default : FAny :=
  {| Storage := nullptr; MainType := FType_default;
     Destruct := None; CopyConstruct := None; ValidTypes := [] |}.

Definition set_Storage (p : ptr) (a : FAny) : FAny :=
  {| Storage := p; MainType := MainType a; Destruct := Destruct a;
     CopyConstruct := CopyConstruct a; ValidTypes := ValidTypes a |}.

Definition set_ValidTypes (s : list FType) (a : FAny) : FAny :=
  {| Storage := Storage a; MainType := MainType a; Destruct := Destruct a;
     CopyConstruct := CopyConstruct a; ValidTypes := s |}.

Definition IsValid (self : FAny) : bool := negb (Storage self =? nullptr).
Definition GetType (self : FAny) : FType := MainType self.

Definition AddAlias (alias : FType) (self : FAny) : FAny :=
  if negb (TSet_Contains (ValidTypes self) alias)
  then set_ValidTypes (TSet_Add (ValidTypes self) alias) self
  else self.

Definition CopyTypeInfo (self other : FAny) : FAny :=
  {| Storage := Storage self;
     MainType := MainType other;
     ValidTypes := ValidTypes other;
     CopyConstruct := CopyConstruct other;
     Destruct := Destruct other |}.

Definition Reset (self : FAny) : FAny :=
  {| Storage := nullptr;
     MainType := FType_default;
     Destruct := None;
     CopyConstruct := None;
     ValidTypes := [] |}.

(** Calling a [TFunction]: an unbound one fails its own check. *)
Definition TFunction_call {C B} (f : option C) (body : C → M B) : M B :=
  match f with
  | Some captured => body captured
  | None => fatal "Attempting to call an unbound TFunction!"
  end.

(** the lambda bound to [Destruct] *)
Definition Destruct_lambda (c : FAnyLambda) (self : FAny) : M FAny :=
  let object := Storage self in
  do lift (λ w, (tt, Fac_Destruct (cap_facilities c) object w)) then
  ret (set_Storage nullptr self).

(** the lambda bound to [CopyConstruct] *)
Definition CopyConstruct_lambda (c : FAnyLambda) (self other : FAny) : M FAny :=
  let object := Storage other in
  let* p := lift (Fac_CopyConstruct (cap_facilities c) object) in
  let self := set_Storage p self in
  do ASSERT_CRASH (negb (Storage self =? nullptr))
       ("Copy constructor failed for " +:+ TTypeName (cap_T c)
          +:+ ". Is it deleted?") then
  ret (CopyTypeInfo self other).

(** [FAny(T* newObject, TAnyTypeFacilities<T> const& facilities)] *)
Definition FAny_ctor (T : CppType) (newObject : ptr)
    (facilities : TAnyTypeFacilities) : FAny :=
  let c := {| cap_T := T; cap_facilities := facilities |} in
  let self := {| Storage := newObject; MainType := TTypeOf T;
                 Destruct := Some c; CopyConstruct := Some c;
                 ValidTypes := [] |} in
  let self := set_ValidTypes (TSet_Add (ValidTypes self) (MainType self)) self in
  if CHasBases T
  then ForEachExplicitBase T (λ Base, AddAlias (TTypeOf Base)) self
  else self.

(** [FAny(FAny const& other)]: returns the constructed object *)
Definition FAny_copy (other : FAny) : M FAny :=
  let this := FAny_default in
  if IsValid other
  then TFunction_call (CopyConstruct other)
         (λ c, CopyConstruct_lambda c this other)
  else ret this.

(** [FAny(FAny&& other)]: returns the constructed object and [other] *)
Definition FAny_move (other : FAny) : M (FAny * FAny) :=
  let this := {| Storage := Storage other;
                 MainType := MainType other;
                 Destruct := Destruct other;
                 CopyConstruct := CopyConstruct other;
                 ValidTypes := ValidTypes other |} in
  let other := {| Storage := Storage other;
                  MainType := MainType other;
                  Destruct := None;
                  CopyConstruct := None;
                  ValidTypes := [] |} in
  ret (this, Reset other).

(** [~FAny()]: returns what is left of the object *)
Definition FAny_dtor (self : FAny) : M FAny :=
  let* self := match Destruct self with
               | Some c => Destruct_lambda c self
               | None => ret self
               end in
  ret (Reset self).

Definition TryGet (T : CppType) (self : FAny) : ptr :=
  if TSet_Contains (ValidTypes self) (TTypeOf T)
  then Storage self
  else nullptr.

Definition WithAlias (T : CppType) (self : FAny) : FAny :=
  let self := AddAlias (TTypeOf T) self in
  if CHasBases T
  then ForEachExplicitBase T (λ Base, AddAlias (TTypeOf Base)) self
  else self.

(** [With(TTypes<T...>&&)] *)
Definition With (Ts : list CppType) (self : FAny) : FAny :=
  foldl (λ acc T, AddAlias (TTypeOf T) acc) self Ts.

(** The values the interface of [FAny] can produce (its members are
    private). *)
Inductive FAny_reachable : FAny → Prop :=
  | reach_default : FAny_reachable FAny_default
  | reach_ctor T newObject facilities :
      FAny_reachable (FAny_ctor T newObject facilities)
  | reach_WithAlias T a :
      FAny_reachable a → FAny_reachable (WithAlias T a)
  | reach_With Ts a :
      FAny_reachable a → FAny_reachable (With Ts a)
  | reach_copy other w this w' :
      FAny_reachable other → FAny_copy other w = Ok this w' →
      FAny_reachable this
  | reach_move_this other w this other' w' :
      FAny_reachable other → FAny_move other w = Ok (this, other') w' →
      FAny_reachable this
  | reach_move_other other w this other' w' :
      FAny_reachable other → FAny_move other w = Ok (this, other') w' →
      FAny_reachable other'
  | reach_dtor a w a' w' :
      FAny_reachable a → FAny_dtor a w = Ok a' w' → FAny_reachable a'.

End Any.
Import Any.

(** ** Composition.h, Composition.cpp *)

Module Composition.

(** What the [Copy] and [Move] lambdas of [AddComponent] capture:
    [unboxedComponent], and the [MainType] they were instantiated for. *)
Record FComponentLogistics := {
  unboxedComponent : ptr;
  log_MainType : CppType
}.

(** A [TMap] is read by key and walked in a range-for.  A walk visits the
    pairs in the order their keys were added, as long as no single pair is
    removed; [Components] and [ComponentLogistics] only grow or are emptied
    as a whole.  Each of the two maps is therefore a [gmap], read by key,
    together with the list of its keys, oldest first.  [ComponentAliases]
    is never walked. *)
Record IComposable := {
  LastAddedComponentHash : N;
  Components : gmap N FAny;
  ComponentLogistics : gmap N FComponentLogistics;
  ComponentAliases : gmap N (list N);
  (** user code, handed the boxed component by reference *)
  OnComponentAdded : option (FAny → World → FAny * World);
  (** the keys of [Components] in the order they were added *)
  Components_order : list N;
  (** the keys of [ComponentLogistics] in the order they were added *)
  ComponentLogistics_order : list N
}.

(** [IComposable() = default] *)
Definition IComposable_default : IComposable :=
  {| LastAddedComponentHash := 0%N; Components := ∅;
     ComponentLogistics := ∅; ComponentAliases := ∅;
     OnComponentAdded := None;
     Components_order := []; ComponentLogistics_order := [] |}.

Definition set_Components (m : gmap N FAny) (c : IComposable) : IComposable :=
  {| LastAddedComponentHash := LastAddedComponentHash c; Components := m;
     ComponentLogistics := ComponentLogistics c;
     ComponentAliases := ComponentAliases c;
     OnComponentAdded := OnComponentAdded c;
     Components_order := Components_order c;
     ComponentLogistics_order := ComponentLogistics_order c |}.

Definition set_ComponentLogistics (m : gmap N FComponentLogistics)
    (c : IComposable) : IComposable :=
  {| LastAddedComponentHash := LastAddedComponentHash c;
     Components := Components c; ComponentLogistics := m;
     ComponentAliases := ComponentAliases c;
     OnComponentAdded := OnComponentAdded c;
     Components_order := Components_order c;
     ComponentLogistics_order := ComponentLogistics_order c |}.

Definition set_ComponentAliases (m : gmap N (list N))
    (c : IComposable) : IComposable :=
  {| LastAddedComponentHash := LastAddedComponentHash c;
     Components := Components c;
     ComponentLogistics := ComponentLogistics c; ComponentAliases := m;
     OnComponentAdded := OnComponentAdded c;
     Components_order := Components_order c;
     ComponentLogistics_order := ComponentLogistics_order c |}.

Definition set_LastAddedComponentHash (h : N) (c : IComposable) : IComposable :=
  {| LastAddedComponentHash := h; Components := Components c;
     ComponentLogistics := ComponentLogistics c;
     ComponentAliases := ComponentAliases c;
     OnComponentAdded := OnComponentAdded c;
     Components_order := Components_order c;
     ComponentLogistics_order := ComponentLogistics_order c |}.

Definition set_Components_order (keys : list N) (c : IComposable)
    : IComposable :=
  {| LastAddedComponentHash := LastAddedComponentHash c;
     Components := Components c;
     ComponentLogistics := ComponentLogistics c;
     ComponentAliases := ComponentAliases c;
     OnComponentAdded := OnComponentAdded c;
     Components_order := keys;
     ComponentLogistics_order := ComponentLogistics_order c |}.

Definition set_ComponentLogistics_order (keys : list N) (c : IComposable)
    : IComposable :=
  {| LastAddedComponentHash := LastAddedComponentHash c;
     Components := Components c;
     ComponentLogistics := ComponentLogistics c;
     ComponentAliases := ComponentAliases c;
     OnComponentAdded := OnComponentAdded c;
     Components_order := Components_order c;
     ComponentLogistics_order := keys |}.

(** [TMap::Contains] *)
Definition Contains {V} (m : gmap N V) (key : N) : bool :=
  bool_decide (is_Some (m !! key)).

(** The order of the keys after [TMap::Add(key, value)]: a new key goes
    last, the value of a key that is there is replaced where it stands. *)
Definition TMap_Add_order {V} (m : gmap N V) (key : N) (keys : list N)
    : list N :=
  if Contains m key then keys else keys ++ [key].

(** The pairs of the map [m] as [for (auto const& [key, value] : m)]
    visits them, [keys] being the order the keys were added in.  Every pair
    is visited once; pairs whose key [keys] does not list would come last,
    and a map filled by [TMap::Add] has none (see [TMap_range_ordered]). *)
Fixpoint TMap_range {V} (keys : list N) (m : gmap N V) : list (N * V) :=
  match keys with
  | [] => map_to_list m
  | key :: keys =>
      match m !! key with
      | Some value => (key, value) :: TMap_range keys (delete key m)
      | None => TMap_range keys m
      end
  end.

(** [Components.Add(key, value)] *)
Definition Components_Add (key : N) (value : FAny) (c : IComposable)
    : IComposable :=
  set_Components_order (TMap_Add_order (Components c) key (Components_order c))
    (set_Components (<[key := value]> (Components c)) c).

(** [ComponentLogistics.Add(key, value)] *)
Definition ComponentLogistics_Add (key : N) (value : FComponentLogistics)
    (c : IComposable) : IComposable :=
  set_ComponentLogistics_order
    (TMap_Add_order (ComponentLogistics c) key (ComponentLogistics_order c))
    (set_ComponentLogistics (<[key := value]> (ComponentLogistics c)) c).

(** [TMap::operator[]], which checks that the key is there *)
Definition TMap_at {V} (m : gmap N V) (key : N) : M V :=
  match m !! key with
  | Some v => ret v
  | None => fatal "Pair != nullptr"
  end.

(** the lambda bound to [FComponentLogistics::Copy] *)
Definition Copy_lambda (c : FComponentLogistics)
    (target : ptr) (targetBoxedComponent : FAny) : M unit :=
  let MainType := log_MainType c in
  if CCopyAwareComponent MainType
  then
    let targetComponent := Any.TryGet MainType targetBoxedComponent in
    do ASSERT_CRASH (negb (targetComponent =? nullptr))
         (TTypeName MainType +:+
          " component cannot be copied as its destination wrapper was incompatible.") then
    emit (EvOnCopiedAt (TTypeHash MainType) targetComponent target
            (unboxedComponent c))
  else ret tt.

(** the lambda bound to [FComponentLogistics::Move] *)
Definition Move_lambda (c : FComponentLogistics) (target : ptr) : M unit :=
  let MainType := log_MainType c in
  if CMoveAwareComponent MainType
  then emit (EvOnMovedAt (TTypeHash MainType) (unboxedComponent c) target)
  else ret tt.

Definition HasExactComponent (typeHash : N) (self : IComposable) : bool :=
  Contains (Components self) typeHash.

Definition HasComponentAliasUnchecked (typeHash : N) (self : IComposable) : bool :=
  Contains (ComponentAliases self) typeHash.

(** [ComponentAliases] is [mutable]: the object is returned as well. *)
Definition HasComponentAlias (typeHash : N) (self : IComposable)
    : bool * IComposable :=
  match ComponentAliases self !! typeHash with
  | Some components =>
      let components :=
        filter (λ i, Contains (Components self) i = true) components in
      match components with
      | [] => (false, set_ComponentAliases
                        (delete typeHash (ComponentAliases self)) self)
      | _ => (true, set_ComponentAliases
                      (<[typeHash := components]> (ComponentAliases self)) self)
      end
  | None => (false, self)
  end.

Definition AddComponentAlias (mainType validAs : N) (self : IComposable)
    : IComposable :=
  match ComponentAliases self !! validAs with
  | Some components =>
      set_ComponentAliases
        (<[validAs := components ++ [mainType]]> (ComponentAliases self)) self
  | None =>
      set_ComponentAliases
        (<[validAs := [mainType]]> (ComponentAliases self)) self
  end.

(** [NotifyCopyComponents(other)] of the composable [self] at [this] *)
Definition NotifyCopyComponents (this : ptr) (self other : IComposable)
    : M unit :=
  for_each (TMap_range (ComponentLogistics_order self) (ComponentLogistics self))
    (λ '(key, logistics),
       let* boxed := TMap_at (Components other) key in
       Copy_lambda logistics this boxed).

Definition ResetComponents (self : IComposable) : IComposable :=
  {| LastAddedComponentHash := 0%N;
     Components := ∅;
     ComponentLogistics := ∅;
     ComponentAliases := ∅;
     OnComponentAdded := OnComponentAdded self;
     Components_order := [];
     ComponentLogistics_order := [] |}.

(** [NotifyMoveComponents(other)] of the composable [self] at [this],
    [other] living at [other_addr]; returns both objects. *)
Definition NotifyMoveComponents (this other_addr : ptr)
    (self other : IComposable) : M (IComposable * IComposable) :=
  if decide (this = other_addr) then ret (self, other)
  else
    do for_each (TMap_range (ComponentLogistics_order self)
                    (ComponentLogistics self))
         (λ '(key, logistics), Move_lambda logistics this) then
    ret (self, ResetComponents other).

(** Copying a [TMap<FTypeHash, FAny>] copy-constructs every value, in the
    order of the source, which the copy keeps. *)
Fixpoint copy_pairs (l : list (N * FAny)) : M (list (N * FAny)) :=
  match l with
  | [] => ret []
  | (key, value) :: l' =>
      let* value' := FAny_copy value in
      let* rest := copy_pairs l' in
      ret ((key, value') :: rest)
  end.

Definition TMap_copy (keys : list N) (m : gmap N FAny) : M (gmap N FAny) :=
  let* pairs := copy_pairs (TMap_range keys m) in
  ret (list_to_map pairs).

(** [IComposable(const IComposable& other)], constructing at [this] *)
Definition IComposable_copy (this : ptr) (other : IComposable)
    : M IComposable :=
  let* components := TMap_copy (Components_order other) (Components other) in
  let self := {| LastAddedComponentHash := LastAddedComponentHash other;
                 Components := components;
                 ComponentLogistics := ComponentLogistics other;
                 ComponentAliases := ComponentAliases other;
                 OnComponentAdded := OnComponentAdded other;
                 Components_order := Components_order other;
                 ComponentLogistics_order := ComponentLogistics_order other |} in
  do NotifyCopyComponents this self other then
  ret self.

(** [IComposable(IComposable&& other)], constructing at [this] from the
    object at [other_addr]; returns the new object and [other]. *)
Definition IComposable_move (this other_addr : ptr) (other : IComposable)
    : M (IComposable * IComposable) :=
  let self := {| LastAddedComponentHash := LastAddedComponentHash other;
                 Components := Components other;
                 ComponentLogistics := ComponentLogistics other;
                 ComponentAliases := ComponentAliases other;
                 OnComponentAdded := OnComponentAdded other;
                 Components_order := Components_order other;
                 ComponentLogistics_order := ComponentLogistics_order other |} in
  let other := {| LastAddedComponentHash := LastAddedComponentHash other;
                  Components := ∅;
                  ComponentLogistics := ∅;
                  ComponentAliases := ∅;
                  OnComponentAdded := None;
                  Components_order := [];
                  ComponentLogistics_order := [] |} in
  NotifyMoveComponents this other_addr self other.

(** [FAny*]: a pointer to a value of [Components], or null *)
Definition GetExactComponent (typeHash : N) (self : IComposable)
    : list (option FAny) :=
  if HasExactComponent typeHash self
  then [Components self !! typeHash]
  else [].

(** [ComponentAliases[typeHash]] is read right after [HasComponentAlias]
    found the key, so that its check cannot fail. *)
Definition GetAliasedComponents (typeHash : N) (self : IComposable)
    : list (option FAny) * IComposable :=
  let '(found, self) := HasComponentAlias typeHash self in
  if found
  then ((λ i, Components self !! i)
          <$> default [] (ComponentAliases self !! typeHash), self)
  else ([], self).

Definition GetComponentsDynamic (typeHash : N) (self : IComposable)
    : list (option FAny) * IComposable :=
  let exact := GetExactComponent typeHash self in
  let '(aliased, self) := GetAliasedComponents typeHash self in
  (exact ++ aliased, self).

(** [GetComponents<T>()], all of the range; [None] stands for a null
    [FAny*] having been dereferenced. *)
Definition GetComponents (T : CppType) (self : IComposable)
    : option (list ptr) * IComposable :=
  let '(components, self) := GetComponentsDynamic (TTypeHash T) self in
  (filter (λ p, p ≠ nullptr)
     <$> mapM (λ component : option FAny, Any.TryGet T <$> component)
              components,
   self).

(** [GetComponents<T>() | First(nullptr)] *)
Definition TryGet (T : CppType) (self : IComposable)
    : option ptr * IComposable :=
  let '(components, self) := GetComponents T self in
  ((λ l, default nullptr (head l)) <$> components, self).

(** [AddComponent(newComponent, facilities)] of the composable at [this] *)
Definition AddComponent (this : ptr) (MainType : CppType)
    (newComponent : ptr) (facilities : TAnyTypeFacilities)
    (self : IComposable) : M IComposable :=
  do ASSERT_CRASH (negb (newComponent =? nullptr)) DefaultAssertionMessage then
  do ASSERT_CRASH (negb (HasExactComponent (TTypeHash MainType) self))
       (TTypeName MainType +:+
        " cannot be added because another component already exists under that type.") then
  let* moved := FAny_move (FAny_ctor MainType newComponent facilities) in
  let* _ := FAny_dtor (snd moved) in
  let boxedComponent := fst moved in
  let self := Components_Add (TTypeHash MainType) boxedComponent self in
  let unboxed := Any.TryGet MainType boxedComponent in
  let self := set_LastAddedComponentHash (TTypeHash MainType) self in
  let self :=
    if CHasBases MainType
    then ForEachExplicitBase MainType
           (λ Base, AddComponentAlias (TTypeHash MainType) (TTypeHash Base)) self
    else self in
  let* self :=
    match OnComponentAdded self with
    | Some hook =>
        let* boxed' := lift (hook boxedComponent) in
        ret (set_Components
               (<[TTypeHash MainType := boxed']> (Components self)) self)
    | None => ret self
    end in
  if CCompatibleExplicitComponent (Traits MainType)
  then
    do emit (EvOnCreatedAt (TTypeHash MainType) unboxed this) then
    if CCopyAwareComponent MainType || CMoveAwareComponent MainType
    then ret (ComponentLogistics_Add (TTypeHash MainType)
                {| unboxedComponent := unboxed; log_MainType := MainType |}
                self)
    else ret self
  else ret self.

(** [AddComponentAlias<ValidAs>(mainType)] *)
Definition AddComponentAlias_as (ValidAs : CppType) (mainType : N)
    (self : IComposable) : M IComposable :=
  let* boxed := TMap_at (Components self) mainType in
  let self := set_Components
                (<[mainType := WithAlias ValidAs boxed]> (Components self)) self in
  let self := AddComponentAlias mainType (TTypeHash ValidAs) self in
  ret (if CHasBases ValidAs
       then ForEachExplicitBase ValidAs
              (λ Base, AddComponentAlias mainType (TTypeHash Base)) self
       else self).

(** [AddAlias<ValidAs...>()] *)
Definition AddAlias (ValidAs : list CppType) (self : IComposable)
    : M IComposable :=
  do ASSERT_CRASH
       (negb (LastAddedComponentHash self =? 0)%N
        && Contains (Components self) (LastAddedComponentHash self))
       "Component aliases were listed, but no components were added before." then
  foldl (λ acc T, let* self := acc in
                  AddComponentAlias_as T (LastAddedComponentHash self) self)
        (ret self) ValidAs.

End Composition.
Import Composition.

(** [Get<T>()]: what [TryGet<T>()] returns, checked.  No null [FAny*] is
    ever dereferenced on the way (see [GetComponents_held]), so the second
    case does not occur. *)
Definition Get (T : CppType) (self : IComposable) : M (ptr * IComposable) :=
  let '(result, self) := Composition.TryGet T self in
  match result with
  | Some result =>
      do ASSERT_CRASH (negb (result =? nullptr))
           ("Component " +:+ TTypeName T +:+ " was unavailable.") then
      ret (result, self)
  | None => fatal "null FAny dereferenced"
  end.

(** ** Sample types and objects *)

Module Examples.

Definition plain : TypeTraits :=
  {| CCopyConstructible := true; CCompatibleExplicitComponent := false;
     HasOnCopiedAt := false; HasOnMovedAt := false |}.

Definition aware : TypeTraits :=
  {| CCopyConstructible := true; CCompatibleExplicitComponent := true;
     HasOnCopiedAt := true; HasOnMovedAt := true |}.

Definition noncopyable : TypeTraits :=
  {| CCopyConstructible := false; CCompatibleExplicitComponent := false;
     HasOnCopiedAt := false; HasOnMovedAt := false |}.

Definition IBaseA : CppType := CppTypeDecl "IBaseA" 21 None plain.
Definition IBaseB : CppType := CppTypeDecl "IBaseB" 22 None plain.
(** [struct FIntrusiveInherit : TInherit<IBaseA, IBaseB> {}] *)
Definition FIntrusiveInherit : CppType :=
  CppTypeDecl "FIntrusiveInherit" 30 (Some [IBaseA; IBaseB]) plain.
Definition FSimpleComponent : CppType :=
  CppTypeDecl "FSimpleComponent" 11 None plain.
(** a component with [OnCreatedAt], [OnCopiedAt] and [OnMovedAt] *)
Definition FAwareComponent : CppType :=
  CppTypeDecl "FAwareComponent" 40 None aware.
(** another such component, of a larger hash *)
Definition FOtherAwareComponent : CppType :=
  CppTypeDecl "FOtherAwareComponent" 41 None aware.
(** a type with a deleted copy constructor *)
Definition FNonCopyable : CppType :=
  CppTypeDecl "FNonCopyable" 50 None noncopyable.

(** a type listing 70 bases *)
Definition FWide : CppType :=
  CppTypeDecl "FWide" 60
    (Some ((λ i, CppTypeDecl "IWideBase" (100 + N.of_nat i) None plain)
             <$> seq 0 70))
    plain.

Definition w0 : World := {| NextAlloc := 1000; Trace := [] |}.

(** [FAny(new FNonCopyable())], the object living at address 100 *)
Definition boxedNonCopyable : FAny :=
  FAny_ctor FNonCopyable 100 (DefaultFacilities FNonCopyable).

(** a composable at address 1 with one copy- and move-aware component
    at address 100 *)
Definition withAware : M IComposable :=
  AddComponent 1 FAwareComponent 100 (DefaultFacilities FAwareComponent)
    IComposable_default.

Definition composableWithAware : IComposable :=
  match withAware w0 with
  | Ok c _ => c
  | Fatal _ => IComposable_default
  end.

(** a composable at address 1 to which [FOtherAwareComponent], at address
    141, was added before [FAwareComponent], at address 100 *)
Definition composableWithTwoAware : IComposable :=
  match (let* c := AddComponent 1 FOtherAwareComponent 141
                     (DefaultFacilities FOtherAwareComponent)
                     IComposable_default in
         AddComponent 1 FAwareComponent 100
           (DefaultFacilities FAwareComponent) c) w0 with
  | Ok c _ => c
  | Fatal _ => IComposable_default
  end.

(** a composable holding [FIntrusiveInherit] and [FSimpleComponent] *)
Definition composableWithTwo : IComposable :=
  match (let* c := AddComponent 1 FIntrusiveInherit 101
                     (DefaultFacilities FIntrusiveInherit)
                     IComposable_default in
         AddComponent 1 FSimpleComponent 102
           (DefaultFacilities FSimpleComponent) c) w0 with
  | Ok c _ => c
  | Fatal _ => IComposable_default
  end.

(** a composable holding [FIntrusiveInherit], which is registered as
    [IBaseA] too, and then a component of the exact type [IBaseA] *)
Definition boxedBaseA : FAny := FAny_ctor IBaseA 103 (DefaultFacilities IBaseA).

Definition composableWithAliased : IComposable :=
  match (let* c := AddComponent 1 FIntrusiveInherit 101
                     (DefaultFacilities FIntrusiveInherit)
                     IComposable_default in
         AddComponent 1 IBaseA 103 (DefaultFacilities IBaseA) c) w0 with
  | Ok c _ => c
  | Fatal _ => IComposable_default
  end.

(** an alias table naming a component that is not there *)
Definition composableWithStaleAlias : IComposable :=
  {| LastAddedComponentHash := 0%N; Components := ∅;
     ComponentLogistics := ∅;
     ComponentAliases := {[ 21%N := [30%N] ]};
     OnComponentAdded := None;
     Components_order := []; ComponentLogistics_order := [] |}.

(** [FAny(new FIntrusiveInherit())], the object living at address 100 *)
Definition boxedIntrusive : FAny :=
  FAny_ctor FIntrusiveInherit 100 (DefaultFacilities FIntrusiveInherit).

(** a composable holding a component that cannot be copied *)
Definition composableWithNonCopyable : IComposable :=
  match AddComponent 1 FNonCopyable 104 (DefaultFacilities FNonCopyable)
          IComposable_default w0 with
  | Ok c _ => c
  | Fatal _ => IComposable_default
  end.

End Examples.

(** ** Vocabulary of the statements *)

(** What the constructor has built after walking the bases [seen]. *)
Definition ctor_inv (T : CppType) (seen : list N) (ft : FType) : Prop :=
  Name ft = TTypeName T ∧ Hash ft = TTypeHash T ∧
  length (BaseTypeHashes ft) = 64%nat ∧
  BaseCount ft = Z.min MaxBaseCount (Z.of_nat (length seen)) ∧
  FType_range ft = take 64 seen.

(** A property of a boxed value that adding aliases keeps. *)
Definition alias_stable (P : FAny → Prop) : Prop :=
  ∀ alias a, P a → P (Any.AddAlias alias a).

(** On every reachable value a valid [Storage] comes with a bound
    [CopyConstruct], and a bound [CopyConstruct] was instantiated for
    the main type. *)
Definition FAny_inv (a : FAny) : Prop :=
  (CopyConstruct a = None → Storage a = nullptr) ∧
  (∀ c, CopyConstruct a = Some c → MainType a = TTypeOf (cap_T c)).

(** A property of a composable that registering aliases keeps. *)
Definition aliasing_stable (P : IComposable → Prop) : Prop :=
  ∀ mainType validAs c, P c → P (AddComponentAlias mainType validAs c).

(** [AddComponent<T>] records logistics for [T]. *)
Definition registers_logistics (T : CppType) : bool :=
  CCompatibleExplicitComponent (Traits T)
  && (CCopyAwareComponent T || CMoveAwareComponent T).

(** The composable holds the valid boxed value [a] under the exact type
    [T], and [a] can be retrieved as [T]. *)
Definition exact_component (T : CppType) (a : FAny) (c : IComposable) : Prop :=
  Components c !! TTypeHash T = Some a ∧
  Storage a ≠ nullptr ∧
  TSet_Contains (ValidTypes a) (TTypeOf T) = true.

#[global] Instance Event_eq_dec : EqDecision Event.
Proof. solve_decision. Defined.

(** the call [Move_lambda] makes for one entry of [ComponentLogistics] *)
Definition move_calls (this : ptr) (entry : N * FComponentLogistics)
    : list Event :=
  if CMoveAwareComponent (log_MainType entry.2)
  then [EvOnMovedAt (TTypeHash (log_MainType entry.2))
          (unboxedComponent entry.2) this]
  else [].

(** the call [Copy_lambda] makes for one entry of [ComponentLogistics]
    when handed the value [other] holds under the key of the entry *)
Definition copy_calls (this : ptr) (other : IComposable)
    (entry : N * FComponentLogistics) : list Event :=
  if CCopyAwareComponent (log_MainType entry.2)
  then match Components other !! entry.1 with
       | Some boxed =>
           [EvOnCopiedAt (TTypeHash (log_MainType entry.2))
              (Any.TryGet (log_MainType entry.2) boxed) this
              (unboxedComponent entry.2)]
       | None => []
       end
  else [].

(** [AddComponent] files the logistics of [MainType] under its hash. *)
Definition logistics_keyed (c : IComposable) : Prop :=
  ∀ key logistics,
    ComponentLogistics c !! key = Some logistics →
    TTypeHash (log_MainType logistics) = key.

(** The logistics of a component are bound to the object the composable
    holds for it. *)
Definition logistics_bound (c : IComposable) : Prop :=
  ∀ key logistics,
    ComponentLogistics c !! key = Some logistics →
    ∃ a, Components c !! key = Some a ∧
         Storage a = unboxedComponent logistics.

(** [keys] lists every key of [m], once: the order [TMap::Add] and
    [TMap::Empty] keep. *)
Definition TMap_ordered {V} (keys : list N) (m : gmap N V) : Prop :=
  NoDup keys ∧ ∀ key, key ∈ keys ↔ is_Some (m !! key).

(** Both walked maps of the composable come with the order of their keys. *)
Definition ordered (c : IComposable) : Prop :=
  TMap_ordered (Components_order c) (Components c) ∧
  TMap_ordered (ComponentLogistics_order c) (ComponentLogistics c).

(** A bound [CopyConstruct] comes with the same [Destruct], and the type
    it was instantiated for is valid, with all of its explicit bases. *)
Definition FAny_typed (a : FAny) : Prop :=
  (CopyConstruct a = None → Destruct a = None) ∧
  ∀ c, CopyConstruct a = Some c →
    Destruct a = Some c ∧
    TSet_Contains (ValidTypes a) (TTypeOf (cap_T c)) = true ∧
    ∀ B, B ∈ ExplicitBases (cap_T c) →
      TSet_Contains (ValidTypes a) (TTypeOf B) = true.

(** The boxed values a lookup of [T] goes through: the exact component
    first, then those listed as [T] whose component is held. *)
Definition held (typeHash : N) (c : IComposable) : list FAny :=
  omap (λ i, Components c !! i)
       (typeHash :: default [] (ComponentAliases c !! typeHash)).

(** the pointers [GetComponents<T>()] yields *)
Definition components_of (T : CppType) (c : IComposable) : list ptr :=
  filter (λ p, p ≠ nullptr) (Any.TryGet T <$> held (TTypeHash T) c).

(** [mainType] is listed under the alias [validAs]. *)
Definition listed (mainType validAs : N) (c : IComposable) : Prop :=
  ∃ l, ComponentAliases c !! validAs = Some l ∧ mainType ∈ l.

(** some type of the list has the hash of [V] *)
Definition names_type (Ts : list CppType) (V : CppType) : bool :=
  existsb (λ T, (TTypeHash T =? TTypeHash V)%N) Ts.

(** [b] is what copy construction made of [a] in some world. *)
Definition copy_of (a b : FAny) : Prop :=
  ∃ w1 w2, FAny_copy a w1 = Ok b w2.


(** * Properties *)

(** ** Type identities *)

Section TypeInfoFacts.

Lemma existsb_hash (h : N) (l : list N) :
  existsb (λ base, (base =? h)%N) l = true ↔ h ∈ l.
Proof.
  rewrite existsb_exists. split.
  - intros (x & Hin & Heq). apply N.eqb_eq in Heq. subst.
    by apply list_elem_of_In.
  - intros Hin. exists h. split; [by apply list_elem_of_In | apply N.eqb_refl].
Qed.

Lemma int32_wrap_small (z : Z) :
  - 2 ^ 31 ≤ z < 2 ^ 31 → int32_wrap z = z.
Proof.
  intros Hz. unfold int32_wrap.
  change (2 ^ 31) with 2147483648 in *.
  change (2 ^ 32) with 4294967296.
  rewrite Z.mod_small; lia.
Qed.

Lemma FType_ctor_lambda_inv T seen ft Base :
  ctor_inv T seen ft →
  ∃ ft', FType_ctor_lambda Base ft = Some ft' ∧
         ctor_inv T (seen ++ [TTypeHash Base]) ft'.
Proof.
  intros (HN & HH & Hlen & Hcount & Hrange).
  unfold FType_ctor_lambda, ctor_inv, MaxBaseCount in *.
  destruct (decide (BaseCount ft >= 64)) as [Hfull | Hroom].
  - exists ft. split; [done |].
    assert (64 ≤ length seen)%nat by lia.
    repeat split; try done.
    + rewrite length_app. cbn [length]. lia.
    + rewrite Hrange. by rewrite take_app_le.
  - assert (Hc : BaseCount ft = Z.of_nat (length seen)) by lia.
    assert (Hlt : (length seen < 64)%nat) by lia.
    unfold array_store.
    destruct (decide (0 ≤ BaseCount ft < Z.of_nat (length (BaseTypeHashes ft))))
      as [_ | Hout]; [| lia].
    simpl. eexists. split; [done |].
    unfold ctor_inv, FType_range in *. simpl.
    rewrite int32_wrap_small by lia.
    rewrite Hc, Nat2Z.id in *.
    repeat split; try done.
    + by rewrite length_insert.
    + rewrite length_app. cbn [length]. lia.
    + replace (Z.to_nat (Z.of_nat (length seen) + 1)) with (S (length seen)) by lia.
      rewrite (take_S_r _ _ (TTypeHash Base)).
      * rewrite take_insert_ge by lia. rewrite Hrange.
        rewrite (take_ge seen) by lia.
        rewrite take_ge; [done |]. rewrite length_app. simpl. lia.
      * apply list_lookup_insert_eq. lia.
Qed.

Lemma FType_ctor_fold_inv T (bases : list CppType) seen ft :
  ctor_inv T seen ft →
  ∃ ft', foldl (λ acc Base, acc ≫= FType_ctor_lambda Base) (Some ft) bases
           = Some ft' ∧
         ctor_inv T (seen ++ (TTypeHash <$> bases)) ft'.
Proof.
  revert seen ft.
  induction bases as [| Base bases IH]; intros seen ft Hinv; simpl.
  - exists ft. by rewrite app_nil_r.
  - destruct (FType_ctor_lambda_inv T seen ft Base Hinv) as (ft1 & -> & Hinv1).
    destruct (IH _ _ Hinv1) as (ft' & Hfold & Hinv').
    exists ft'. split; [done |]. by rewrite <- app_assoc in Hinv'.
Qed.

Lemma ExplicitBases_no_Bases T : CHasBases T = false → ExplicitBases T = [].
Proof. unfold CHasBases. destruct T as [n h [bs |] tr]; simpl; [done | done]. Qed.

Lemma FType_ctor_inv T :
  ∃ ft, FType_ctor T = Some ft ∧
        ctor_inv T (TTypeHash <$> ExplicitBases T) ft.
Proof.
  set (init := {| Name := TTypeName T; Hash := TTypeHash T;
                  BaseTypeHashes := BaseTypeHashes FType_default;
                  BaseCount := 0 |}).
  assert (Hinit : ctor_inv T [] init) by (by repeat split).
  unfold FType_ctor. fold init.
  destruct (CHasBases T) eqn:HB.
  - apply (FType_ctor_fold_inv T (ExplicitBases T) [] init Hinit).
  - exists init. split; [done |]. by rewrite ExplicitBases_no_Bases.
Qed.

Lemma TTypeOf_ctor T : FType_ctor T = Some (TTypeOf T).
Proof.
  destruct (FType_ctor_inv T) as (ft & Hft & _).
  unfold TTypeOf. by rewrite Hft.
Qed.

Lemma TTypeOf_Hash T : Hash (TTypeOf T) = TTypeHash T.
Proof.
  destruct (FType_ctor_inv T) as (ft & Hft & _ & HH & _).
  unfold TTypeOf. by rewrite Hft.
Qed.

Lemma TTypeOf_Name T : Name (TTypeOf T) = TTypeName T.
Proof.
  destruct (FType_ctor_inv T) as (ft & Hft & HN & _).
  unfold TTypeOf. by rewrite Hft.
Qed.

End TypeInfoFacts.

(** C8. [a.IsCompatibleWith(b)] holds exactly when the hashes are equal or
    the hash of one is among the base hashes of the other; the relation
    is therefore symmetric and reflexive. *)
Theorem IsCompatibleWith_iff (a b : FType) :
  (IsCompatibleWith a b = true ↔
     Hash a = Hash b ∨ Hash a ∈ FType_range b ∨ Hash b ∈ FType_range a) ∧
  IsCompatibleWith a b = IsCompatibleWith b a ∧
  IsCompatibleWith a a = true.
Proof.
  assert (Hiff : ∀ x y, IsCompatibleWith x y = true ↔
     Hash x = Hash y ∨ Hash x ∈ FType_range y ∨ Hash y ∈ FType_range x).
  { intros x y. unfold IsCompatibleWith.
    destruct (N.eqb_spec (Hash x) (Hash y)) as [Heq | Hne]; [tauto |].
    destruct (existsb _ (FType_range y)) eqn:E1.
    - apply existsb_hash in E1. tauto.
    - destruct (existsb _ (FType_range x)) eqn:E2.
      + apply existsb_hash in E2. tauto.
      + split; [done |]. intros [? | [Hin | Hin]]; [done | |];
          apply existsb_hash in Hin; congruence. }
  split; [apply Hiff |]. split.
  - destruct (IsCompatibleWith a b) eqn:Eab, (IsCompatibleWith b a) eqn:Eba;
      try done.
    + apply Hiff in Eab. assert (IsCompatibleWith b a = true) as Hba
        by (apply Hiff; intuition (auto; congruence)). congruence.
    + apply Hiff in Eba. assert (IsCompatibleWith a b = true) as Hab
        by (apply Hiff; intuition (auto; congruence)). congruence.
  - apply Hiff. by left.
Qed.

(** C9. The constructor of [FType] never stores outside of
    [BaseTypeHashes] and never fails: it records the first [MaxBaseCount]
    (64) hashes of the flattened explicit base list, in order, and drops
    the rest. *)
Theorem FType_ctor_truncates (T : CppType) :
  FType_ctor T = Some (TTypeOf T) ∧
  length (BaseTypeHashes (TTypeOf T)) = 64%nat ∧
  BaseCount (TTypeOf T)
    = Z.min MaxBaseCount (Z.of_nat (length (ExplicitBases T))) ∧
  FType_range (TTypeOf T) = take 64 (TTypeHash <$> ExplicitBases T).
Proof.
  destruct (FType_ctor_inv T) as (ft & Hft & _ & _ & Hlen & Hcount & Hrange).
  unfold TTypeOf. rewrite Hft. simpl.
  rewrite length_fmap in Hcount. done.
Qed.

Example FType_ctor_FWide :
  length (ExplicitBases Examples.FWide) = 70%nat ∧
  BaseCount (TTypeOf Examples.FWide) = 64 ∧
  last (FType_range (TTypeOf Examples.FWide)) = Some 163%N.
Proof. by vm_compute. Qed.

(** ** Type-erased values *)

Section AnyFacts.

Lemma FType_eqb_refl t : FType_eqb t t = true.
Proof. apply N.eqb_refl. Qed.

Lemma AddAlias_Storage alias a : Storage (Any.AddAlias alias a) = Storage a.
Proof. unfold Any.AddAlias. by destruct (negb _). Qed.

Lemma AddAlias_Destruct alias a : Destruct (Any.AddAlias alias a) = Destruct a.
Proof. unfold Any.AddAlias. by destruct (negb _). Qed.

Lemma AddAlias_CopyConstruct alias a :
  CopyConstruct (Any.AddAlias alias a) = CopyConstruct a.
Proof. unfold Any.AddAlias. by destruct (negb _). Qed.

Lemma AddAlias_MainType alias a : MainType (Any.AddAlias alias a) = MainType a.
Proof. unfold Any.AddAlias. by destruct (negb _). Qed.

Lemma AddAlias_Contains alias a t :
  TSet_Contains (ValidTypes a) t = true →
  TSet_Contains (ValidTypes (Any.AddAlias alias a)) t = true.
Proof.
  intros Ht. unfold Any.AddAlias, TSet_Add.
  destruct (TSet_Contains (ValidTypes a) alias) eqn:E; simpl; [done |].
  unfold TSet_Contains in *. rewrite existsb_app, Ht. done.
Qed.

Lemma AddAlias_Contains_alias alias a :
  TSet_Contains (ValidTypes (Any.AddAlias alias a)) alias = true.
Proof.
  unfold Any.AddAlias, TSet_Add.
  destruct (TSet_Contains (ValidTypes a) alias) eqn:E; simpl; [done |].
  unfold TSet_Contains in *. rewrite existsb_app. simpl.
  rewrite FType_eqb_refl. by rewrite orb_true_r.
Qed.

Lemma alias_fold_stable (P : FAny → Prop) (Ts : list CppType) a :
  alias_stable P → P a →
  P (foldl (λ acc T, Any.AddAlias (TTypeOf T) acc) a Ts).
Proof.
  intros HP. revert a.
  induction Ts as [| T Ts IH]; intros a Ha; simpl; [done |].
  apply IH, HP, Ha.
Qed.

Lemma ForEachExplicitBase_stable (P : FAny → Prop) T a :
  alias_stable P → P a →
  P (ForEachExplicitBase T (λ Base, Any.AddAlias (TTypeOf Base)) a).
Proof. apply alias_fold_stable. Qed.

Lemma WithAlias_stable (P : FAny → Prop) T a :
  alias_stable P → P a → P (WithAlias T a).
Proof.
  intros HP Ha. unfold WithAlias.
  destruct (CHasBases T); [apply ForEachExplicitBase_stable |]; auto.
Qed.

Lemma With_stable (P : FAny → Prop) Ts a :
  alias_stable P → P a → P (Any.With Ts a).
Proof. apply alias_fold_stable. Qed.

Lemma FAny_ctor_stable (P : FAny → Prop) T newObject facilities :
  alias_stable P →
  P {| Storage := newObject; MainType := TTypeOf T;
       Destruct := Some {| cap_T := T; cap_facilities := facilities |};
       CopyConstruct := Some {| cap_T := T; cap_facilities := facilities |};
       ValidTypes := [TTypeOf T] |} →
  P (FAny_ctor T newObject facilities).
Proof.
  intros HP Hinit. unfold FAny_ctor.
  destruct (CHasBases T); [apply ForEachExplicitBase_stable |]; auto.
Qed.

Lemma FAny_ctor_Storage T newObject facilities :
  Storage (FAny_ctor T newObject facilities) = newObject.
Proof.
  apply (FAny_ctor_stable (λ a, Storage a = newObject)); [| done].
  intros alias a. by rewrite AddAlias_Storage.
Qed.

Lemma FAny_ctor_Contains T newObject facilities :
  TSet_Contains (ValidTypes (FAny_ctor T newObject facilities)) (TTypeOf T)
    = true.
Proof.
  apply (FAny_ctor_stable
           (λ a, TSet_Contains (ValidTypes a) (TTypeOf T) = true)).
  - intros alias a. apply AddAlias_Contains.
  - simpl. by rewrite FType_eqb_refl.
Qed.

Lemma FAny_ctor_closures T newObject facilities :
  let c := {| cap_T := T; cap_facilities := facilities |} in
  Destruct (FAny_ctor T newObject facilities) = Some c ∧
  CopyConstruct (FAny_ctor T newObject facilities) = Some c ∧
  MainType (FAny_ctor T newObject facilities) = TTypeOf T.
Proof.
  apply (FAny_ctor_stable
           (λ a, Destruct a = Some _ ∧ CopyConstruct a = Some _ ∧
                 MainType a = TTypeOf T)); [| done].
  intros alias a.
  by rewrite AddAlias_Destruct, AddAlias_CopyConstruct, AddAlias_MainType.
Qed.

Lemma FAny_ctor_TryGet T newObject facilities :
  Any.TryGet T (FAny_ctor T newObject facilities) = newObject.
Proof.
  unfold Any.TryGet. by rewrite FAny_ctor_Contains, FAny_ctor_Storage.
Qed.

End AnyFacts.

(** C2. A value wrapped as [T] is handed back by [TryGet<T>()]: the
    result is the wrapped pointer itself, which is not null, also after
    further aliases were added.  For any boxed value and any type whose
    identity is not in [ValidTypes], [TryGet] returns null; [TryGet] is a
    total function, it has no failing path. *)
Theorem TryGet_wrapped (T : CppType) (newObject : ptr)
    (facilities : TAnyTypeFacilities) :
  newObject ≠ nullptr →
  Any.TryGet T (FAny_ctor T newObject facilities) = newObject ∧
  Any.TryGet T (FAny_ctor T newObject facilities) ≠ nullptr ∧
  (∀ Us : list CppType,
     Any.TryGet T (foldr WithAlias (FAny_ctor T newObject facilities) Us)
       = newObject) ∧
  ∀ (a : FAny) (U : CppType),
    TSet_Contains (ValidTypes a) (TTypeOf U) = false →
    Any.TryGet U a = nullptr.
Proof.
  intros Hnonnull. rewrite FAny_ctor_TryGet.
  split; [done |]. split; [done |]. split.
  - intros Us.
    assert (Hwraps : Storage (foldr WithAlias
                                (FAny_ctor T newObject facilities) Us)
                       = newObject ∧
                     TSet_Contains
                       (ValidTypes (foldr WithAlias
                                      (FAny_ctor T newObject facilities) Us))
                       (TTypeOf T) = true).
    { induction Us as [| U Us IH]; simpl.
      - by rewrite FAny_ctor_Storage, FAny_ctor_Contains.
      - apply (WithAlias_stable
                 (λ a, Storage a = newObject ∧
                       TSet_Contains (ValidTypes a) (TTypeOf T) = true));
          [| done].
        intros alias a [Hs Hc].
        by rewrite AddAlias_Storage, AddAlias_Contains. }
    destruct Hwraps as [Hs Hc]. unfold Any.TryGet. by rewrite Hc.
  - intros a U HU. unfold Any.TryGet. by rewrite HU.
Qed.

Lemma TryGet_wrapped_witness :
  100 ≠ nullptr ∧
  Any.TryGet Examples.FIntrusiveInherit
    (FAny_ctor Examples.FIntrusiveInherit 100
       (DefaultFacilities Examples.FIntrusiveInherit)) = 100 ∧
  Any.TryGet Examples.FSimpleComponent
    (FAny_ctor Examples.FIntrusiveInherit 100
       (DefaultFacilities Examples.FIntrusiveInherit)) = nullptr.
Proof.
  assert (H100 : 100 ≠ nullptr) by lia.
  destruct (TryGet_wrapped Examples.FIntrusiveInherit 100
              (DefaultFacilities Examples.FIntrusiveInherit) H100)
    as (Hget & _ & _ & Hmiss).
  split; [exact H100 |]. split; [exact Hget |].
  apply Hmiss. vm_compute. reflexivity.
Defined.

(** C5. Move construction hands [Storage], both closures, the main type
    and the alias set over to the new object and leaves the source empty:
    null [Storage], no closures, no valid types, [IsValid()] false.  The
    world is untouched: no code of the payload runs, its move constructor
    included, and nothing is allocated. *)
Theorem FAny_move_transfers (other : FAny) (w : World) :
  ∃ this other',
    FAny_move other w = Ok (this, other') w ∧
    Storage this = Storage other ∧
    MainType this = MainType other ∧
    Destruct this = Destruct other ∧
    CopyConstruct this = CopyConstruct other ∧
    ValidTypes this = ValidTypes other ∧
    Storage other' = nullptr ∧
    Destruct other' = None ∧
    CopyConstruct other' = None ∧
    ValidTypes other' = [] ∧
    IsValid other' = false.
Proof.
  eexists _, _. split; [reflexivity |]. by repeat split.
Qed.

Section CopyFacts.

Lemma FAny_inv_alias_stable : alias_stable FAny_inv.
Proof.
  intros alias a. unfold FAny_inv.
  by rewrite AddAlias_CopyConstruct, AddAlias_Storage, AddAlias_MainType.
Qed.

Lemma FAny_inv_default : FAny_inv FAny_default.
Proof. by split. Qed.

Lemma FAny_copy_valid other c w :
  IsValid other = true → CopyConstruct other = Some c →
  FAny_copy other w =
    let '(p, w') := Fac_CopyConstruct (cap_facilities c) (Storage other) w in
    if p =? nullptr
    then Fatal ("Copy constructor failed for " +:+ TTypeName (cap_T c)
                  +:+ ". Is it deleted?")
    else Ok {| Storage := p; MainType := MainType other;
               Destruct := Destruct other;
               CopyConstruct := CopyConstruct other;
               ValidTypes := ValidTypes other |} w'.
Proof.
  intros Hvalid Hc. unfold FAny_copy. rewrite Hvalid, Hc. simpl.
  unfold CopyConstruct_lambda, bind, lift.
  destruct (Fac_CopyConstruct _ _ _) as [p w']. simpl.
  unfold ASSERT_CRASH, ret, fatal, CopyTypeInfo.
  destruct (p =? 0); simpl; rewrite ?Hc; done.
Qed.

Lemma FAny_copy_invalid other w :
  IsValid other = false → FAny_copy other w = Ok FAny_default w.
Proof. intros Hinvalid. unfold FAny_copy. by rewrite Hinvalid. Qed.

Lemma FAny_reachable_inv a : FAny_reachable a → FAny_inv a.
Proof.
  induction 1 as [| T p fac | T a _ IH | Ts a _ IH
                  | other w this w' _ IH Hcopy
                  | other w this other' w' _ IH Hmove
                  | other w this other' w' _ IH Hmove
                  | a w a' w' _ IH Hdtor].
  - apply FAny_inv_default.
  - apply FAny_ctor_stable; [apply FAny_inv_alias_stable |]. split; [done |].
    simpl. by intros c [= <-].
  - by apply WithAlias_stable; [apply FAny_inv_alias_stable |].
  - by apply With_stable; [apply FAny_inv_alias_stable |].
  - destruct (IsValid other) eqn:Hvalid.
    + destruct (CopyConstruct other) as [c |] eqn:Hc.
      * rewrite (FAny_copy_valid _ c) in Hcopy by done.
        destruct (Fac_CopyConstruct _ _ _) as [p w1].
        destruct (p =? 0); [done |].
        injection Hcopy as <- _. destruct IH as [_ IH2].
        split; simpl; rewrite Hc; [done |].
        intros c' [= <-]. by apply IH2.
      * unfold FAny_copy in Hcopy. by rewrite Hvalid, Hc in Hcopy.
    + rewrite FAny_copy_invalid in Hcopy by done.
      injection Hcopy as <- _. apply FAny_inv_default.
  - injection Hmove as <- _ _. by destruct other.
  - injection Hmove as _ <- _. apply FAny_inv_default.
  - unfold FAny_dtor, bind in Hdtor.
    destruct (Destruct a) as [c |].
    + unfold Destruct_lambda, bind, lift, ret in Hdtor. simpl in Hdtor.
      injection Hdtor as <- _. apply FAny_inv_default.
    + injection Hdtor as <- _. apply FAny_inv_default.
Qed.

(** With the default facilities a payload that is not copy constructible
    cannot be copied: the facility returns null. *)
Lemma FAny_copy_noncopyable T p w :
  p ≠ nullptr → CCopyConstructible (Traits T) = false →
  FAny_copy (FAny_ctor T p (DefaultFacilities T)) w
    = Fatal ("Copy constructor failed for " +:+ TTypeName T
               +:+ ". Is it deleted?").
Proof.
  intros Hp Hnocopy.
  destruct (FAny_ctor_closures T p (DefaultFacilities T)) as (_ & Hc & _).
  assert (Hvalid : IsValid (FAny_ctor T p (DefaultFacilities T)) = true).
  { unfold IsValid. rewrite FAny_ctor_Storage.
    by apply negb_true_iff, Z.eqb_neq. }
  rewrite (FAny_copy_valid _ _ w Hvalid Hc).
  simpl. by rewrite Hnocopy.
Qed.

End CopyFacts.

(** C3, as the specification states it, fails: copying a value whose
    [CopyConstruct] is unbound (a default-constructed one) is not fatal,
    the guard [other.IsValid()] skips the call and the copy is an empty
    value. *)
Lemma FAny_copy_unbound_not_fatal :
  CopyConstruct FAny_default = None ∧
  FAny_copy FAny_default Examples.w0 = Ok FAny_default Examples.w0 ∧
  ¬ is_fatal (FAny_copy FAny_default Examples.w0).
Proof. split; [done |]. split; [done |]. simpl. tauto. Qed.

(** C3, amended.  On every value the interface can produce: an unbound
    [CopyConstruct] only occurs on an invalid (empty) value; copying an
    invalid value is not fatal and yields an empty value; copying a valid
    value calls the bound [CopyConstruct], and is fatal exactly when the
    copy facility returns null, with a message that names the stored
    type; otherwise the copy owns the new object and has the type
    information and closures of its source. *)
Theorem FAny_copy_contract (other : FAny) (w : World) :
  FAny_reachable other →
  (CopyConstruct other = None → IsValid other = false) ∧
  (IsValid other = false → FAny_copy other w = Ok FAny_default w) ∧
  (IsValid other = true →
     ∃ c, CopyConstruct other = Some c ∧
       let '(p, w') := Fac_CopyConstruct (cap_facilities c) (Storage other) w in
       FAny_copy other w =
         if p =? nullptr
         then Fatal ("Copy constructor failed for " +:+ Name (MainType other)
                       +:+ ". Is it deleted?")
         else Ok {| Storage := p; MainType := MainType other;
                    Destruct := Destruct other;
                    CopyConstruct := CopyConstruct other;
                    ValidTypes := ValidTypes other |} w').
Proof.
  intros Hreach. destruct (FAny_reachable_inv _ Hreach) as [Hunbound Hbound].
  split; [| split].
  - intros Hnone. unfold IsValid. by rewrite (Hunbound Hnone).
  - apply FAny_copy_invalid.
  - intros Hvalid. destruct (CopyConstruct other) as [c |] eqn:Hc.
    + exists c. split; [done |].
      rewrite (Hbound c eq_refl), TTypeOf_Name.
      rewrite (FAny_copy_valid other c w Hvalid Hc).
      destruct (Fac_CopyConstruct _ _ _) as [p w'].
      by rewrite (Hbound c eq_refl), Hc.
    + unfold IsValid in Hvalid. by rewrite Hunbound in Hvalid.
Qed.

Lemma FAny_copy_contract_witness :
  FAny_reachable Examples.boxedNonCopyable ∧
  FAny_copy Examples.boxedNonCopyable Examples.w0
    = Fatal "Copy constructor failed for FNonCopyable. Is it deleted?".
Proof.
  assert (Hreach : FAny_reachable Examples.boxedNonCopyable)
    by apply reach_ctor.
  split; [exact Hreach |].
  destruct (FAny_copy_contract Examples.boxedNonCopyable Examples.w0 Hreach)
    as (_ & _ & Hvalid).
  destruct (Hvalid eq_refl) as (c & Hc & Hcopy).
  vm_compute in Hc. injection Hc as <-.
  exact Hcopy.
Defined.

(** ** Composable objects *)

Section CompositionFacts.

Lemma bind_Ok {A B} (m : M A) (k : A → M B) a w w' :
  m w = Ok a w' → bind m k w = k a w'.
Proof. intros H. unfold bind. by rewrite H. Qed.

Lemma FAny_move_eq a w : FAny_move a w = Ok (a, FAny_default) w.
Proof. by destruct a. Qed.

Lemma FAny_dtor_default w : FAny_dtor FAny_default w = Ok FAny_default w.
Proof. done. Qed.

Lemma Contains_true {V} (m : gmap N V) key :
  Contains m key = true ↔ is_Some (m !! key).
Proof. unfold Contains. apply bool_decide_eq_true. Qed.

Lemma Contains_false {V} (m : gmap N V) key :
  Contains m key = false ↔ m !! key = None.
Proof.
  unfold Contains. rewrite bool_decide_eq_false. symmetry. apply eq_None_not_Some.
Qed.

Lemma alias_bases_stable (P : IComposable → Prop) T mainType c :
  aliasing_stable P → P c →
  P (ForEachExplicitBase T
       (λ Base, AddComponentAlias mainType (TTypeHash Base)) c).
Proof.
  intros HP. unfold ForEachExplicitBase. revert c.
  induction (ExplicitBases T) as [| B l IH]; intros c Hc; simpl; [done |].
  apply IH, HP, Hc.
Qed.

Lemma AddComponentAlias_keeps mainType validAs c :
  Components (AddComponentAlias mainType validAs c) = Components c ∧
  ComponentLogistics (AddComponentAlias mainType validAs c)
    = ComponentLogistics c ∧
  OnComponentAdded (AddComponentAlias mainType validAs c)
    = OnComponentAdded c ∧
  LastAddedComponentHash (AddComponentAlias mainType validAs c)
    = LastAddedComponentHash c.
Proof. unfold AddComponentAlias. by destruct (ComponentAliases c !! validAs). Qed.

Lemma AddComponent_ok this T p fac self w :
  p ≠ nullptr → HasExactComponent (TTypeHash T) self = false →
  ∃ self' w' boxed,
    AddComponent this T p fac self w = Ok self' w' ∧
    Components self' = <[TTypeHash T := boxed]> (Components self) ∧
    (OnComponentAdded self = None → boxed = FAny_ctor T p fac) ∧
    ComponentLogistics self' =
      (if registers_logistics T
       then <[TTypeHash T := {| unboxedComponent := p; log_MainType := T |}]>
              (ComponentLogistics self)
       else ComponentLogistics self) ∧
    LastAddedComponentHash self' = TTypeHash T ∧
    OnComponentAdded self' = OnComponentAdded self.
Proof.
  intros Hp Hexact. apply Z.eqb_neq in Hp.
  unfold AddComponent.
  rewrite (bind_Ok _ _ tt w w) by (by rewrite Hp).
  rewrite (bind_Ok _ _ tt w w) by (by rewrite Hexact).
  rewrite (bind_Ok _ _ _ w w (FAny_move_eq _ _)).
  cbn [fst snd].
  rewrite (bind_Ok _ _ _ w w (FAny_dtor_default _)).
  rewrite FAny_ctor_TryGet.
  set (c0 := set_LastAddedComponentHash _ _).
  set (c1 := if CHasBases T then _ else c0).
  assert (Hc1 : Components c1 = <[TTypeHash T := FAny_ctor T p fac]> (Components self) ∧
                ComponentLogistics c1 = ComponentLogistics self ∧
                OnComponentAdded c1 = OnComponentAdded self ∧
                LastAddedComponentHash c1 = TTypeHash T).
  { subst c1. destruct (CHasBases T); [| done].
    apply alias_bases_stable; [| done].
    intros m v c. by destruct (AddComponentAlias_keeps m v c) as (-> & -> & -> & ->). }
  destruct Hc1 as (HC & HL & HO & HA).
  unfold registers_logistics.
  destruct (OnComponentAdded c1) as [hook |] eqn:Hhook.
  - destruct (hook (FAny_ctor T p fac) w) as [boxed' w1] eqn:Hcall.
    rewrite (bind_Ok _ _ (set_Components (<[TTypeHash T := boxed']> (Components c1)) c1) w w1).
    2:{ unfold bind, lift. by rewrite Hcall. }
    destruct (CCompatibleExplicitComponent (Traits T)); simpl;
      [destruct (CCopyAwareComponent T || CMoveAwareComponent T) |];
      (eexists _, _, boxed'; split; [reflexivity |]; simpl;
       rewrite ?HC, ?HL, ?HA, ?Hhook, ?insert_insert_eq;
       repeat split; try done; by rewrite <- HO).
  - rewrite (bind_Ok _ _ c1 w w) by done.
    destruct (CCompatibleExplicitComponent (Traits T)); simpl;
      [destruct (CCopyAwareComponent T || CMoveAwareComponent T) |];
      (eexists _, _, _; split; [reflexivity |]; simpl;
       rewrite ?HC, ?HL, ?HA, ?Hhook; by repeat split).
Qed.

Lemma AddComponent_duplicate this T p fac self w :
  p ≠ nullptr → HasExactComponent (TTypeHash T) self = true →
  AddComponent this T p fac self w =
    Fatal (TTypeName T +:+
           " cannot be added because another component already exists under that type.").
Proof.
  intros Hp Hexact. apply Z.eqb_neq in Hp.
  unfold AddComponent.
  rewrite (bind_Ok _ _ tt w w) by (by rewrite Hp).
  unfold bind at 1. by rewrite Hexact.
Qed.

(** A null component pointer fails the first assertion, whatever the
    composable holds. *)
Lemma AddComponent_null this T fac self w :
  AddComponent this T nullptr fac self w = Fatal "Program has hit an assertion".
Proof. done. Qed.

Lemma filter_Contains_idem {V} (m : gmap N V) (l : list N) :
  filter (λ i, Contains m i = true) (filter (λ i, Contains m i = true) l)
    = filter (λ i, Contains m i = true) l.
Proof.
  induction l as [| i l IH]; [done |].
  rewrite filter_cons. destruct (decide (Contains m i = true)) as [Hi | Hi].
  - by rewrite filter_cons_True, IH.
  - done.
Qed.

Lemma lookups_defined {V} (m : gmap N V) (l : list N) :
  ∃ vs, (λ i, m !! i) <$> filter (λ i, Contains m i = true) l = Some <$> vs.
Proof.
  induction l as [| i l (vs & IH)]; [by exists [] |].
  rewrite filter_cons. destruct (decide (Contains m i = true)) as [Hi | Hi].
  - apply Contains_true in Hi as [v Hv].
    exists (v :: vs). rewrite !fmap_cons, IH, Hv. done.
  - by exists vs.
Qed.

(** [HasComponentAlias] leaves everything but [ComponentAliases] alone,
    and asking again changes nothing any more. *)
Lemma HasComponentAlias_spec typeHash c :
  ∃ found c',
    HasComponentAlias typeHash c = (found, c') ∧
    Components c' = Components c ∧
    HasComponentAlias typeHash c' = (found, c') ∧
    (found = false → ComponentAliases c' !! typeHash = None) ∧
    (found = true →
       ∃ vs, (λ i, Components c' !! i)
               <$> default [] (ComponentAliases c' !! typeHash)
             = Some <$> vs).
Proof.
  unfold HasComponentAlias.
  destruct (ComponentAliases c !! typeHash) as [l |] eqn:Hl.
  - destruct (filter _ l) as [| i l'] eqn:Hfilter.
    + eexists _, _. split; [reflexivity |]. simpl.
      rewrite lookup_delete_eq. by repeat split.
    + assert (Hidem : filter (λ i, Contains (Components c) i = true) (i :: l')
                      = i :: l')
        by (rewrite <- Hfilter; apply filter_Contains_idem).
      destruct (lookups_defined (Components c) l) as (vs & Hvs).
      rewrite Hfilter in Hvs.
      eexists _, _. split; [reflexivity |].
      cbn [Components ComponentAliases set_ComponentAliases].
      rewrite lookup_insert_eq, Hidem, insert_insert_eq.
      repeat split; try done.
      intros _. by exists vs.
  - exists false, c. rewrite Hl. by repeat split.
Qed.

Lemma GetAliasedComponents_spec typeHash c :
  ∃ vs c',
    GetAliasedComponents typeHash c = (Some <$> vs, c') ∧
    Components c' = Components c ∧
    GetAliasedComponents typeHash c' = (Some <$> vs, c').
Proof.
  destruct (HasComponentAlias_spec typeHash c)
    as (found & c' & Hfirst & HC & Hagain & Hmiss & Hhit).
  unfold GetAliasedComponents. rewrite Hfirst.
  destruct found.
  - destruct (Hhit eq_refl) as (vs & Hvs).
    exists vs, c'. rewrite Hagain, Hvs. done.
  - exists [], c'. by rewrite Hagain.
Qed.

Lemma GetExactComponent_Components typeHash c c' :
  Components c' = Components c →
  GetExactComponent typeHash c' = GetExactComponent typeHash c.
Proof.
  intros HC. unfold GetExactComponent, HasExactComponent. by rewrite HC.
Qed.

Lemma GetExactComponent_defined typeHash c :
  ∃ vs, GetExactComponent typeHash c = Some <$> vs.
Proof.
  unfold GetExactComponent, HasExactComponent.
  destruct (Contains (Components c) typeHash) eqn:Hc.
  - apply Contains_true in Hc as [v Hv]. exists [v]. by rewrite Hv.
  - by exists [].
Qed.

Lemma GetComponentsDynamic_spec typeHash c :
  ∃ vs c',
    GetComponentsDynamic typeHash c = (Some <$> vs, c') ∧
    Components c' = Components c ∧
    GetComponentsDynamic typeHash c' = (Some <$> vs, c').
Proof.
  destruct (GetAliasedComponents_spec typeHash c)
    as (aliased & c' & Hfirst & HC & Hagain).
  destruct (GetExactComponent_defined typeHash c) as (exact & Hexact).
  exists (exact ++ aliased), c'. unfold GetComponentsDynamic.
  rewrite Hagain, (GetExactComponent_Components _ c c' HC), Hfirst, Hexact.
  by rewrite fmap_app.
Qed.

Lemma mapM_TryGet T (vs : list FAny) :
  mapM (λ component : option FAny, Any.TryGet T <$> component) (Some <$> vs)
    = Some (Any.TryGet T <$> vs).
Proof.
  induction vs as [| v vs IH]; [done |].
  rewrite !fmap_cons. simpl. simpl in IH. by rewrite IH.
Qed.

End CompositionFacts.

(** C7. Adding a component (a non-null pointer) of an exact type the
    composable already holds is fatal, and the message starts with the
    name of the type: there is no resulting composable, so nothing was
    replaced or duplicated.  When no component of that exact type is
    held, the call succeeds: the new component is stored under the hash
    of its type and every other component stays as it was. *)
Theorem AddComponent_duplicate_fatal (this : ptr) (T : CppType)
    (newComponent : ptr) (facilities : TAnyTypeFacilities)
    (self : IComposable) (w : World) :
  newComponent ≠ nullptr →
  (HasExactComponent (TTypeHash T) self = true →
     AddComponent this T newComponent facilities self w =
       Fatal (TTypeName T +:+
              " cannot be added because another component already exists under that type.")) ∧
  (HasExactComponent (TTypeHash T) self = false →
     ∃ self' w' boxed,
       AddComponent this T newComponent facilities self w = Ok self' w' ∧
       Components self' !! TTypeHash T = Some boxed ∧
       (OnComponentAdded self = None →
          boxed = FAny_ctor T newComponent facilities) ∧
       ∀ typeHash, typeHash ≠ TTypeHash T →
         Components self' !! typeHash = Components self !! typeHash).
Proof.
  intros Hp. split; intros Hexact.
  - by apply AddComponent_duplicate.
  - destruct (AddComponent_ok this T newComponent facilities self w Hp Hexact)
      as (self' & w' & boxed & Hadd & HC & Hboxed & _).
    exists self', w', boxed. rewrite HC.
    split; [done |]. split; [apply lookup_insert_eq |]. split; [done |].
    intros typeHash Hne. by apply lookup_insert_ne.
Qed.

(** C4. For every composable, stale alias entries included, and every
    type [T]: [GetComponents<T>()] yields a range, and calling it again on
    the composable as the first call left it yields the very same
    pointers, in the same order, hence the same set. *)
Theorem GetComponents_twice (T : CppType) (c : IComposable) :
  ∃ first second c1 c2,
    GetComponents T c = (Some first, c1) ∧
    GetComponents T c1 = (Some second, c2) ∧
    first = second ∧
    (∀ p, p ∈ first ↔ p ∈ second).
Proof.
  destruct (GetComponentsDynamic_spec (TTypeHash T) c)
    as (vs & c' & Hfirst & _ & Hagain).
  exists (filter (λ p, p ≠ nullptr) (Any.TryGet T <$> vs)),
         (filter (λ p, p ≠ nullptr) (Any.TryGet T <$> vs)), c', c'.
  unfold GetComponents. rewrite Hfirst, Hagain, mapM_TryGet. done.
Qed.

(** C10. When the composable holds a component of the exact type [T],
    [GetComponentsDynamic] yields it first, before whatever is aliased as
    [T]; so does [GetComponents<T>()], and [TryGet<T>()] returns the
    exact component. *)
Theorem exact_component_first (T : CppType) (a : FAny) (c : IComposable) :
  exact_component T a c →
  ∃ rest ptrs c',
    GetComponentsDynamic (TTypeHash T) c = (Some a :: rest, c') ∧
    GetComponents T c = (Some (Storage a :: ptrs), c') ∧
    Composition.TryGet T c = (Some (Storage a), c').
Proof.
  intros (Ha & Hvalid & Hcontains).
  destruct (GetAliasedComponents_spec (TTypeHash T) c)
    as (vs & c' & Haliased & _ & _).
  assert (Hdyn : GetComponentsDynamic (TTypeHash T) c
                 = (Some <$> (a :: vs), c')).
  { unfold GetComponentsDynamic, GetExactComponent, HasExactComponent.
    rewrite Haliased.
    rewrite (proj2 (Contains_true (Components c) (TTypeHash T))) by (by rewrite Ha).
    by rewrite Ha. }
  assert (Hget : GetComponents T c
                 = (Some (Storage a :: filter (λ p, p ≠ nullptr)
                                         (Any.TryGet T <$> vs)), c')).
  { unfold GetComponents. rewrite Hdyn, mapM_TryGet.
    rewrite fmap_cons. unfold Any.TryGet at 1. rewrite Hcontains.
    simpl. by rewrite filter_cons_True. }
  eexists _, _, c'. split; [exact Hdyn |]. split; [exact Hget |].
  unfold Composition.TryGet. by rewrite Hget.
Qed.

Section MoveFacts.

Lemma elem_of_TMap_range {V} (keys : list N) (m : gmap N V) key value :
  (key, value) ∈ TMap_range keys m ↔ m !! key = Some value.
Proof.
  revert m. induction keys as [| k keys IH]; intros m; cbn [TMap_range].
  - apply elem_of_map_to_list.
  - destruct (m !! k) as [v |] eqn:Hk; [| apply IH].
    rewrite elem_of_cons, IH, lookup_delete_Some. split.
    + by intros [[= -> ->] | [_ Hlookup]].
    + intros Hlookup. destruct (decide (k = key)) as [-> | Hne].
      * left. congruence.
      * by right.
Qed.

Lemma NoDup_fst_TMap_range {V} (keys : list N) (m : gmap N V) :
  NoDup (TMap_range keys m).*1.
Proof.
  revert m. induction keys as [| k keys IH]; intros m; cbn [TMap_range].
  - apply NoDup_fst_map_to_list.
  - destruct (m !! k) as [v |] eqn:Hk; [| apply IH].
    rewrite fmap_cons. apply NoDup_cons. split; [| apply IH].
    intros ([k' v'] & Heq & Hin%elem_of_TMap_range)%list_elem_of_fmap.
    simpl in Heq. subst k'. by rewrite lookup_delete_eq in Hin.
Qed.

(** On a map that comes with the order of its keys the walk is the list
    of the keys, each with its value. *)
Lemma TMap_range_ordered {V} (keys : list N) (m : gmap N V) :
  TMap_ordered keys m →
  TMap_range keys m = omap (λ key, pair key <$> m !! key) keys.
Proof.
  revert m. induction keys as [| k keys IH]; intros m [Hnodup Hkeys].
  - cbn [TMap_range]. csimpl.
    assert (m = ∅) as ->.
    { apply map_empty. intros key. apply eq_None_not_Some.
      rewrite <- Hkeys. apply not_elem_of_nil. }
    apply map_to_list_empty.
  - apply NoDup_cons in Hnodup as [Hfresh Hnodup].
    destruct (proj1 (Hkeys k) ltac:(left)) as [v Hk].
    cbn [TMap_range]. csimpl. rewrite Hk. csimpl.
    f_equal. rewrite IH.
    + apply list_omap_ext, Forall2_same_length_lookup. split; [done |].
      intros i key key' Hi Hi'. assert (key' = key) as -> by congruence.
      rewrite lookup_delete_ne; [done |]. intros <-.
      by apply Hfresh, (list_elem_of_lookup_2 _ i).
    + split; [done |]. intros key. rewrite lookup_delete_is_Some, <- Hkeys.
      rewrite elem_of_cons. split.
      * intros Hin. split; [by intros <- | by right].
      * by intros [Hne [-> | Hin]].
Qed.

Lemma TMap_ordered_empty {V} : TMap_ordered [] (∅ : gmap N V).
Proof.
  split; [apply NoDup_nil_2 |]. intros key.
  rewrite lookup_empty, elem_of_nil. split; [done |]. by intros [? ?].
Qed.

Lemma TMap_ordered_Add {V} (keys : list N) (m : gmap N V) key value :
  TMap_ordered keys m →
  TMap_ordered (TMap_Add_order m key keys) (<[key := value]> m).
Proof.
  intros [Hnodup Hkeys]. unfold TMap_Add_order, Contains.
  destruct (bool_decide_reflect (is_Some (m !! key))) as [Hin | Hnew].
  - split; [done |]. intros k. rewrite lookup_insert_is_Some, Hkeys.
    split.
    + intros Hk. destruct (decide (key = k)); [by left | by right].
    + by intros [<- | [_ Hk]].
  - split.
    + apply NoDup_app. split; [done |]. split; [| apply NoDup_singleton].
      intros k Hk ->%list_elem_of_singleton. by apply Hnew, Hkeys.
    + intros k. rewrite elem_of_app, list_elem_of_singleton,
        lookup_insert_is_Some, Hkeys.
      split.
      * intros [Hk | ->]; [| by left].
        destruct (decide (key = k)) as [-> | Hne]; [by left | by right].
      * intros [<- | [_ Hk]]; [by right | by left].
Qed.

Lemma World_eta w : {| NextAlloc := NextAlloc w; Trace := Trace w ++ [] |} = w.
Proof. destruct w. simpl. by rewrite app_nil_r. Qed.

Lemma for_each_Move_lambda (l : list (N * FComponentLogistics)) this w :
  for_each l (λ '(key, logistics), Move_lambda logistics this) w
    = Ok tt {| NextAlloc := NextAlloc w;
               Trace := Trace w ++ flat_map (move_calls this) l |}.
Proof.
  revert w. induction l as [| [key logistics] l IH]; intros w; simpl.
  - unfold ret. by rewrite World_eta.
  - unfold bind, Move_lambda, move_calls. simpl.
    destruct (CMoveAwareComponent (log_MainType logistics)); simpl.
    + rewrite IH. simpl. by rewrite <- app_assoc.
    + by rewrite IH.
Qed.

Lemma count_move_calls_head this k lg e :
  count_occ Event_eq_dec (move_calls this (k, lg)) e =
    if decide (CMoveAwareComponent (log_MainType lg) = true ∧
               EvOnMovedAt (TTypeHash (log_MainType lg))
                 (unboxedComponent lg) this = e)
    then 1%nat else 0%nat.
Proof.
  unfold move_calls. cbn [snd].
  destruct (CMoveAwareComponent (log_MainType lg)).
  - destruct (decide (EvOnMovedAt (TTypeHash (log_MainType lg))
                        (unboxedComponent lg) this = e)) as [Heq | Hne].
    + rewrite count_occ_cons_eq by done.
      by rewrite decide_True.
    + rewrite count_occ_cons_neq by done.
      rewrite decide_False; [done | tauto].
  - rewrite decide_False; [done |]. by intros [? _].
Qed.

Lemma count_move_calls_other this (l : list (N * FComponentLogistics)) key p :
  key ∉ l.*1 →
  (∀ k lg, (k, lg) ∈ l → TTypeHash (log_MainType lg) = k) →
  count_occ Event_eq_dec (flat_map (move_calls this) l)
    (EvOnMovedAt key p this) = 0%nat.
Proof.
  induction l as [| [k lg] l IH]; intros Hnotin Hkeyed; [done |].
  rewrite fmap_cons in Hnotin. apply not_elem_of_cons in Hnotin as [Hne Hnotin].
  cbn [flat_map]. rewrite count_occ_app, IH, count_move_calls_head.
  - rewrite decide_False; [done |].
    intros [_ [= Hk _]]. rewrite (Hkeyed k lg) in Hk by left. done.
  - done.
  - intros k' lg' Hin. apply Hkeyed. by right.
Qed.

Lemma count_move_calls_entry this (l : list (N * FComponentLogistics)) key lg :
  NoDup l.*1 →
  (∀ k lg, (k, lg) ∈ l → TTypeHash (log_MainType lg) = k) →
  (key, lg) ∈ l →
  CMoveAwareComponent (log_MainType lg) = true →
  count_occ Event_eq_dec (flat_map (move_calls this) l)
    (EvOnMovedAt key (unboxedComponent lg) this) = 1%nat.
Proof.
  induction l as [| [k1 lg1] l IH]; intros Hnodup Hkeyed Hin Haware.
  - by apply elem_of_nil in Hin.
  - rewrite fmap_cons in Hnodup. apply NoDup_cons in Hnodup as [Hfresh Hnodup].
    assert (Htail : ∀ k' lg', (k', lg') ∈ l → TTypeHash (log_MainType lg') = k')
      by (intros k' lg' Hin'; apply Hkeyed; by right).
    cbn [flat_map]. rewrite count_occ_app, count_move_calls_head.
    apply elem_of_cons in Hin as [[= <- <-] | Hin].
    + rewrite count_move_calls_other by done.
      rewrite decide_True; [done |].
      split; [done |]. by rewrite (Hkeyed key lg) by left.
    + rewrite IH by done.
      rewrite decide_False; [done |].
      intros [_ [= Hk _]]. rewrite (Hkeyed k1 lg1) in Hk by left.
      subst k1. apply Hfresh. apply list_elem_of_fmap. by exists (key, lg).
Qed.

Lemma move_calls_shape this (l : list (N * FComponentLogistics)) e :
  e ∈ flat_map (move_calls this) l → ∃ T p, e = EvOnMovedAt T p this.
Proof.
  induction l as [| [k lg] l IH]; simpl.
  - by intros ?%elem_of_nil.
  - intros [Hhead | Htail]%elem_of_app; [| by apply IH].
    unfold move_calls in Hhead. simpl in Hhead.
    destruct (CMoveAwareComponent (log_MainType lg)).
    + apply list_elem_of_singleton in Hhead. eauto.
    + by apply elem_of_nil in Hhead.
Qed.

(** Move construction (of an object other than the source) cannot fail:
    it runs the [Move] closures in the order the logistics were added,
    hands the source's members to the new object and empties the source. *)
Lemma IComposable_move_Ok this other_addr other w :
  this ≠ other_addr →
  ∃ other',
    IComposable_move this other_addr other w
      = Ok (other, other')
           {| NextAlloc := NextAlloc w;
              Trace := Trace w ++
                flat_map (move_calls this)
                  (TMap_range (ComponentLogistics_order other)
                     (ComponentLogistics other)) |} ∧
    Components other' = ∅ ∧
    ComponentLogistics other' = ∅ ∧
    ComponentAliases other' = ∅ ∧
    LastAddedComponentHash other' = 0%N.
Proof.
  intros Hdistinct. eexists. split.
  - unfold IComposable_move, NotifyMoveComponents.
    destruct (decide (this = other_addr)) as [| _]; [done |].
    cbn [ComponentLogistics ComponentLogistics_order].
    rewrite (bind_Ok _ _ _ _ _ (for_each_Move_lambda _ this w)).
    unfold ret. by destruct other.
  - done.
Qed.

End MoveFacts.

(** C6. Move construction runs the [Move] closures as they were captured,
    and those of a copy-constructed composable are the closures of its
    source, bound to the components of the source.  Copying the composable
    at address 1, whose move-aware component lives at address 100, to
    address 2 creates the component of the copy at address 1000.
    Move-constructing the object at address 3 from that copy then calls
    [OnMovedAt] once, with the new owner 3, on the object at 100, which
    the composable at address 1 still holds: the component at 1000, the
    one that moved to the new owner, is never notified.  The source of the
    move is left with its three maps empty and [LastAddedComponentHash]
    zero. *)
Theorem IComposable_move_notifies_original :
  ∃ copy w1 self other' w2,
    IComposable_copy 2 Examples.composableWithAware Examples.w0
      = Ok copy w1 ∧
    IComposable_move 3 2 copy w1 = Ok (self, other') w2 ∧
    Storage <$> (Components Examples.composableWithAware !! 40%N) = Some 100 ∧
    Storage <$> (Components self !! 40%N) = Some 1000 ∧
    Trace w2 = Trace w1 ++ [EvOnMovedAt 40 100 3] ∧
    Components other' = ∅ ∧
    ComponentLogistics other' = ∅ ∧
    ComponentAliases other' = ∅ ∧
    LastAddedComponentHash other' = 0%N.
Proof.
  destruct (IComposable_copy 2 Examples.composableWithAware Examples.w0)
    as [copy w1 |] eqn:Hcopy; [| by vm_compute in Hcopy].
  assert (Hresult :
    match IComposable_copy 2 Examples.composableWithAware Examples.w0 with
    | Ok c _ =>
        (Storage <$> (Components c !! 40%N),
         flat_map (move_calls 3)
           (TMap_range (ComponentLogistics_order c) (ComponentLogistics c)))
    | Fatal _ => (None, [])
    end = (Some 1000, [EvOnMovedAt 40 100 3]))
    by (vm_compute; reflexivity).
  rewrite Hcopy in Hresult. injection Hresult as Hheld Hcalls.
  destruct (IComposable_move_Ok 3 2 copy w1 ltac:(lia))
    as (other' & Hmove & Hempty).
  rewrite Hcalls in Hmove.
  exists copy, w1, copy, other'. eexists.
  split; [reflexivity |]. split; [exact Hmove |].
  split; [vm_compute; reflexivity |]. split; [exact Hheld |].
  split; [reflexivity | exact Hempty].
Qed.

Section LogisticsFacts.

Lemma AddComponent_Ok_inv this T p fac self w self' w' :
  AddComponent this T p fac self w = Ok self' w' →
  p ≠ nullptr ∧ HasExactComponent (TTypeHash T) self = false.
Proof.
  unfold AddComponent, bind at 1, ASSERT_CRASH.
  destruct (Z.eqb_spec p 0) as [-> | Hp]; [done |]. simpl.
  unfold bind at 1, ASSERT_CRASH.
  by destruct (HasExactComponent (TTypeHash T) self).
Qed.

Lemma logistics_keyed_default : logistics_keyed IComposable_default.
Proof.
  intros key logistics. unfold IComposable_default.
  cbn [ComponentLogistics]. by rewrite lookup_empty.
Qed.

Lemma logistics_bound_default : logistics_bound IComposable_default.
Proof.
  intros key logistics. unfold IComposable_default.
  cbn [ComponentLogistics]. by rewrite lookup_empty.
Qed.

Lemma logistics_keyed_AddComponent this T p fac self w self' w' :
  logistics_keyed self →
  AddComponent this T p fac self w = Ok self' w' →
  logistics_keyed self'.
Proof.
  intros Hkeyed Hadd.
  destruct (AddComponent_Ok_inv _ _ _ _ _ _ _ _ Hadd) as [Hp Hexact].
  destruct (AddComponent_ok this T p fac self w Hp Hexact)
    as (c & w1 & boxed & Hadd' & _ & _ & HL & _).
  rewrite Hadd in Hadd'. injection Hadd' as <- <-.
  intros key logistics. rewrite HL.
  destruct (registers_logistics T); [| apply Hkeyed].
  intros [[<- <-] | [_ Hold]]%lookup_insert_Some; [done |].
  by apply Hkeyed.
Qed.

Lemma logistics_bound_AddComponent this T p fac self w self' w' :
  OnComponentAdded self = None →
  logistics_bound self →
  AddComponent this T p fac self w = Ok self' w' →
  logistics_bound self'.
Proof.
  intros Hhook Hbound Hadd.
  destruct (AddComponent_Ok_inv _ _ _ _ _ _ _ _ Hadd) as [Hp Hexact].
  destruct (AddComponent_ok this T p fac self w Hp Hexact)
    as (c & w1 & boxed & Hadd' & HC & Hboxed & HL & _).
  rewrite Hadd in Hadd'. injection Hadd' as <- <-.
  rewrite (Hboxed Hhook) in HC.
  apply Contains_false in Hexact.
  intros key logistics. rewrite HL, HC.
  assert (Hold : ComponentLogistics self !! key = Some logistics →
                 ∃ a, <[TTypeHash T := FAny_ctor T p fac]> (Components self)
                        !! key = Some a ∧
                      Storage a = unboxedComponent logistics).
  { intros Hlg. destruct (Hbound key logistics Hlg) as (a & Ha & Hs).
    exists a. split; [| done].
    rewrite lookup_insert_ne; [done |]. intros <-. congruence. }
  destruct (registers_logistics T); [| done].
  intros [[<- <-] | [_ Hlg]]%lookup_insert_Some; [| by apply Hold].
  exists (FAny_ctor T p fac).
  by rewrite lookup_insert_eq, FAny_ctor_Storage.
Qed.

Lemma IComposable_copy_logistics this other w self w' :
  IComposable_copy this other w = Ok self w' →
  ComponentLogistics self = ComponentLogistics other.
Proof.
  unfold IComposable_copy, bind.
  destruct (TMap_copy (Components_order other) (Components other) w)
    as [components w1 |]; [| done].
  destruct (NotifyCopyComponents _ _ _ _); [| done].
  by intros [= <- _].
Qed.

Lemma logistics_keyed_copy this other w self w' :
  logistics_keyed other →
  IComposable_copy this other w = Ok self w' →
  logistics_keyed self.
Proof.
  intros Hkeyed Hcopy key logistics.
  rewrite (IComposable_copy_logistics _ _ _ _ _ Hcopy). apply Hkeyed.
Qed.

Lemma logistics_keyed_move this other_addr other w self other' w' :
  logistics_keyed other →
  IComposable_move this other_addr other w = Ok (self, other') w' →
  logistics_keyed self ∧ logistics_keyed other'.
Proof.
  intros Hkeyed. unfold IComposable_move, NotifyMoveComponents.
  destruct (decide (this = other_addr)) as [| _].
  - intros [= <- <- _]. split; [done |].
    intros key logistics. unfold ResetComponents.
    cbn [ComponentLogistics]. by rewrite lookup_empty.
  - rewrite (bind_Ok _ _ _ _ _ (for_each_Move_lambda _ this w)).
    intros [= <- <- _]. split; [done |].
    intros key logistics. unfold ResetComponents.
    cbn [ComponentLogistics]. by rewrite lookup_empty.
Qed.

Lemma AddComponentAlias_as_logistics ValidAs mainType self w self' w' :
  AddComponentAlias_as ValidAs mainType self w = Ok self' w' →
  ComponentLogistics self' = ComponentLogistics self.
Proof.
  unfold AddComponentAlias_as, bind, TMap_at.
  destruct (Components self !! mainType) as [boxed |]; [| done].
  simpl. intros [= <- _].
  assert (Hstable : aliasing_stable
            (λ c, ComponentLogistics c = ComponentLogistics self)).
  { intros m v c <-. by destruct (AddComponentAlias_keeps m v c) as (_ & -> & _). }
  destruct (CHasBases ValidAs).
  - apply alias_bases_stable; [done |]. by apply Hstable.
  - by apply Hstable.
Qed.

Lemma AddAlias_logistics ValidAs self w self' w' :
  Composition.AddAlias ValidAs self w = Ok self' w' →
  ComponentLogistics self' = ComponentLogistics self.
Proof.
  unfold Composition.AddAlias, bind at 1.
  destruct (ASSERT_CRASH _ _ w) as [[] w1 |]; [| done].
  assert (Hfold : ∀ (m : M IComposable),
    (∀ c w2 w3, m w2 = Ok c w3 →
       ComponentLogistics c = ComponentLogistics self) →
    foldl (λ acc T, let* self0 := acc in
                    AddComponentAlias_as T (LastAddedComponentHash self0) self0)
          m ValidAs w1 = Ok self' w' →
    ComponentLogistics self' = ComponentLogistics self).
  { induction ValidAs as [| T Ts IH]; intros m Hm; simpl.
    - apply Hm.
    - apply IH. intros c w2 w3. unfold bind.
      destruct (m w2) as [c0 w4 |] eqn:Hstep; [| done].
      intros Has%AddComponentAlias_as_logistics.
      rewrite Has. by apply (Hm _ _ _ Hstep). }
  apply Hfold. by intros c w2 w3 [= <- _].
Qed.

Lemma logistics_keyed_AddAlias ValidAs self w self' w' :
  logistics_keyed self →
  Composition.AddAlias ValidAs self w = Ok self' w' →
  logistics_keyed self'.
Proof.
  intros Hkeyed Halias key logistics.
  rewrite (AddAlias_logistics _ _ _ _ _ Halias). apply Hkeyed.
Qed.

(** What [NotifyCopyComponents] calls depends on the logistics and on
    the components of [other] only: the boxed value handed to each
    [Copy] is the one [other] holds. *)
Lemma for_each_Copy_lambda (l : list (N * FComponentLogistics))
    this other w w' :
  for_each l (λ '(key, logistics),
                let* boxed := TMap_at (Components other) key in
                Copy_lambda logistics this boxed) w = Ok tt w' →
  w' = {| NextAlloc := NextAlloc w;
          Trace := Trace w ++ flat_map (copy_calls this other) l |}.
Proof.
  revert w. induction l as [| [key logistics] l IH]; intros w; simpl.
  - intros [= <-]. by rewrite World_eta.
  - unfold bind at 1, bind at 1, TMap_at, Copy_lambda, copy_calls.
    cbn [fst snd].
    destruct (Components other !! key) as [boxed |]; simpl.
    + destruct (CCopyAwareComponent (log_MainType logistics)); simpl.
      * unfold bind at 1, ASSERT_CRASH.
        destruct (Any.TryGet (log_MainType logistics) boxed =? 0);
          [done |]. simpl.
        intros ->%IH. simpl. by rewrite <- app_assoc.
      * by intros ->%IH.
    + by destruct (CCopyAwareComponent (log_MainType logistics)).
Qed.

Lemma IComposable_copy_calls this other w self w' :
  IComposable_copy this other w = Ok self w' →
  ∃ w1, TMap_copy (Components_order other) (Components other) w
          = Ok (Components self) w1 ∧
        Trace w' = Trace w1 ++
          flat_map (copy_calls this other)
                   (TMap_range (ComponentLogistics_order other)
                      (ComponentLogistics other)).
Proof.
  unfold IComposable_copy, bind.
  destruct (TMap_copy (Components_order other) (Components other) w)
    as [components w1 |]; [| done].
  destruct (NotifyCopyComponents _ _ _ _) as [[] w2 |] eqn:Hnotify; [| done].
  intros [= <- <-]. exists w1. split; [done |].
  unfold NotifyCopyComponents in Hnotify.
  cbn [ComponentLogistics ComponentLogistics_order] in Hnotify.
  by apply for_each_Copy_lambda in Hnotify as ->.
Qed.

End LogisticsFacts.

Example GetComponents_prunes :
  GetComponents Examples.IBaseA Examples.composableWithStaleAlias
    = (Some [], IComposable_default).
Proof. by vm_compute. Qed.

(** ** Instances on the sample objects *)

Lemma AddComponent_duplicate_fatal_witness :
  200 ≠ nullptr ∧
  HasExactComponent (TTypeHash Examples.FAwareComponent)
    Examples.composableWithAware = true ∧
  AddComponent 1 Examples.FAwareComponent 200
    (DefaultFacilities Examples.FAwareComponent)
    Examples.composableWithAware Examples.w0
  = Fatal "FAwareComponent cannot be added because another component already exists under that type." ∧
  HasExactComponent (TTypeHash Examples.FSimpleComponent)
    Examples.composableWithAware = false ∧
  ∃ self' w',
    AddComponent 1 Examples.FSimpleComponent 200
      (DefaultFacilities Examples.FSimpleComponent)
      Examples.composableWithAware Examples.w0 = Ok self' w' ∧
    Components self' !! TTypeHash Examples.FAwareComponent
      = Components Examples.composableWithAware
          !! TTypeHash Examples.FAwareComponent.
Proof.
  assert (H200 : 200 ≠ nullptr) by lia.
  assert (Hheld : HasExactComponent (TTypeHash Examples.FAwareComponent)
                    Examples.composableWithAware = true)
    by (vm_compute; reflexivity).
  assert (Hfree : HasExactComponent (TTypeHash Examples.FSimpleComponent)
                    Examples.composableWithAware = false)
    by (vm_compute; reflexivity).
  split; [exact H200 |]. split; [exact Hheld |].
  split.
  - exact (proj1 (AddComponent_duplicate_fatal 1 Examples.FAwareComponent 200
                    (DefaultFacilities Examples.FAwareComponent)
                    Examples.composableWithAware Examples.w0 H200) Hheld).
  - split; [exact Hfree |].
    destruct (proj2 (AddComponent_duplicate_fatal 1 Examples.FSimpleComponent
                       200 (DefaultFacilities Examples.FSimpleComponent)
                       Examples.composableWithAware Examples.w0 H200) Hfree)
      as (self' & w' & boxed & Hadd & _ & _ & Hothers).
    exists self', w'. split; [exact Hadd |].
    apply Hothers. vm_compute. discriminate.
Defined.

Lemma exact_component_first_witness :
  exact_component Examples.IBaseA Examples.boxedBaseA
    Examples.composableWithAliased ∧
  (GetComponents Examples.IBaseA Examples.composableWithAliased).1
    = Some [103; 101] ∧
  (Composition.TryGet Examples.IBaseA Examples.composableWithAliased).1
    = Some 103.
Proof.
  assert (Hexact : exact_component Examples.IBaseA Examples.boxedBaseA
                     Examples.composableWithAliased).
  { split; [vm_compute; reflexivity |].
    split; [vm_compute; discriminate | vm_compute; reflexivity]. }
  split; [exact Hexact |].
  destruct (exact_component_first Examples.IBaseA Examples.boxedBaseA
              Examples.composableWithAliased Hexact)
    as (rest & ptrs & c' & _ & _ & Htry).
  split; [vm_compute; reflexivity |].
  rewrite Htry. reflexivity.
Defined.

(** C1. The copy constructor hands each [Copy] closure the boxed
    component of the source, [other.Components[key]], not the one now
    present on the copy.  Copying the composable at address 1, whose
    copy-aware component lives at address 100, to address 2 creates the
    new component at address 1000, and then calls [OnCopiedAt] on the
    object at 100, the source component, with itself as second argument:
    the new component at 1000 is never notified. *)
Theorem IComposable_copy_notifies_source :
  ∃ copy w',
    IComposable_copy 2 Examples.composableWithAware Examples.w0
      = Ok copy w' ∧
    Storage <$> (Components Examples.composableWithAware !! 40%N) = Some 100 ∧
    Storage <$> (Components copy !! 40%N) = Some 1000 ∧
    Trace w' = [EvCopyConstructed 40 100 1000; EvOnCopiedAt 40 100 2 100].
Proof.
  destruct (IComposable_copy 2 Examples.composableWithAware Examples.w0)
    as [copy w' |] eqn:Hcopy; [| by vm_compute in Hcopy].
  exists copy, w'. split; [reflexivity |].
  assert (Hresult :
    match IComposable_copy 2 Examples.composableWithAware Examples.w0 with
    | Ok c w => (Storage <$> (Components c !! 40%N), Trace w)
    | Fatal _ => (None, [])
    end = (Some 1000,
           [EvCopyConstructed 40 100 1000; EvOnCopiedAt 40 100 2 100]))
    by (vm_compute; reflexivity).
  rewrite Hcopy in Hresult. injection Hresult as -> ->.
  split; [vm_compute; reflexivity |]. done.
Qed.

(** * Further properties *)


Section LifetimeFacts.

Lemma alias_fold_Contains (Ts : list CppType) a B :
  B ∈ Ts →
  TSet_Contains
    (ValidTypes (foldl (λ acc T, Any.AddAlias (TTypeOf T) acc) a Ts))
    (TTypeOf B) = true.
Proof.
  revert a. induction Ts as [| T Ts IH]; intros a Hin.
  - by apply elem_of_nil in Hin.
  - simpl. apply elem_of_cons in Hin as [-> | Hin]; [| by apply IH].
    apply (alias_fold_stable
             (λ x, TSet_Contains (ValidTypes x) (TTypeOf T) = true)).
    + intros alias x. apply AddAlias_Contains.
    + apply AddAlias_Contains_alias.
Qed.

Lemma FAny_ctor_bases T p fac B :
  B ∈ ExplicitBases T →
  TSet_Contains (ValidTypes (FAny_ctor T p fac)) (TTypeOf B) = true.
Proof.
  intros Hin. unfold FAny_ctor.
  destruct (CHasBases T) eqn:HB.
  - by apply alias_fold_Contains.
  - rewrite ExplicitBases_no_Bases in Hin by done. by apply elem_of_nil in Hin.
Qed.

Lemma FAny_typed_alias_stable : alias_stable FAny_typed.
Proof.
  intros alias a [Hnone Hsome]. unfold FAny_typed.
  rewrite AddAlias_CopyConstruct, AddAlias_Destruct.
  split; [done |]. intros c Hc. destruct (Hsome c Hc) as (Hd & Hm & Hb).
  split; [done |]. split; [by apply AddAlias_Contains |].
  intros B HB. by apply AddAlias_Contains, Hb.
Qed.

Lemma FAny_typed_default : FAny_typed FAny_default.
Proof. by split. Qed.

Lemma FAny_reachable_typed a : FAny_reachable a → FAny_typed a.
Proof.
  induction 1 as [| T p fac | T a _ IH | Ts a _ IH
                  | other w this w' _ IH Hcopy
                  | other w this other' w' _ IH Hmove
                  | other w this other' w' _ IH Hmove
                  | a w a' w' _ IH Hdtor].
  - apply FAny_typed_default.
  - destruct (FAny_ctor_closures T p fac) as (Hd & Hc & _).
    split; [by rewrite Hc |]. rewrite Hc, Hd. intros c [= <-]. simpl.
    split; [done |]. split; [apply FAny_ctor_Contains |].
    intros B HB. by apply FAny_ctor_bases.
  - by apply WithAlias_stable; [apply FAny_typed_alias_stable |].
  - by apply With_stable; [apply FAny_typed_alias_stable |].
  - destruct (IsValid other) eqn:Hvalid.
    + destruct (CopyConstruct other) as [c |] eqn:Hc.
      * rewrite (FAny_copy_valid _ c) in Hcopy by done.
        destruct (Fac_CopyConstruct _ _ _) as [p w1].
        destruct (p =? 0); [done |].
        injection Hcopy as <- _. destruct IH as [_ IH2].
        split; simpl; rewrite Hc; [done |].
        intros c' [= <-]. by apply IH2.
      * unfold FAny_copy in Hcopy. by rewrite Hvalid, Hc in Hcopy.
    + rewrite FAny_copy_invalid in Hcopy by done.
      injection Hcopy as <- _. apply FAny_typed_default.
  - injection Hmove as <- _ _. by destruct other.
  - injection Hmove as _ <- _. apply FAny_typed_default.
  - unfold FAny_dtor, bind in Hdtor.
    destruct (Destruct a) as [c |].
    + unfold Destruct_lambda, bind, lift, ret in Hdtor. simpl in Hdtor.
      injection Hdtor as <- _. apply FAny_typed_default.
    + injection Hdtor as <- _. apply FAny_typed_default.
Qed.

Lemma FAny_dtor_eq a w :
  FAny_dtor a w =
    Ok FAny_default
       match Destruct a with
       | Some c => Fac_Destruct (cap_facilities c) (Storage a) w
       | None => w
       end.
Proof. unfold FAny_dtor, bind. by destruct (Destruct a). Qed.

End LifetimeFacts.

(** X1. Moving a boxed value and then destroying both objects has the
    effect of destroying the original: the [Destruct] facility runs once,
    on the stored pointer, when it is bound, and not at all otherwise;
    destroying an empty value does nothing. *)
Theorem FAny_move_then_destroy (a : FAny) (w : World) :
  (let* moved := FAny_move a in
   let* _ := FAny_dtor (snd moved) in
   FAny_dtor (fst moved)) w
  = FAny_dtor a w ∧
  FAny_dtor a w =
    Ok FAny_default
       match Destruct a with
       | Some c => Fac_Destruct (cap_facilities c) (Storage a) w
       | None => w
       end ∧
  ∀ w', FAny_dtor FAny_default w' = Ok FAny_default w'.
Proof.
  split; [| split].
  - rewrite (bind_Ok _ _ _ w w (FAny_move_eq a w)). cbn [fst snd].
    by rewrite (bind_Ok _ _ _ w w (FAny_dtor_default w)).
  - apply FAny_dtor_eq.
  - done.
Qed.

(** X2. A successful copy of a valid value is valid, has the main type,
    the valid types and the closures of its source, and is therefore
    retrievable under exactly the types its source is. *)
Theorem FAny_copy_same_types (a b : FAny) (w w' : World) :
  IsValid a = true →
  FAny_copy a w = Ok b w' →
  IsValid b = true ∧
  MainType b = MainType a ∧
  ValidTypes b = ValidTypes a ∧
  CopyConstruct b = CopyConstruct a ∧
  Destruct b = Destruct a ∧
  ∀ U, Any.TryGet U b ≠ nullptr ↔ Any.TryGet U a ≠ nullptr.
Proof.
  intros Hvalid Hcopy.
  destruct (CopyConstruct a) as [c |] eqn:Hc.
  - rewrite (FAny_copy_valid _ c) in Hcopy by done.
    destruct (Fac_CopyConstruct _ _ _) as [p w1].
    destruct (Z.eqb_spec p 0) as [| Hp]; [done |].
    injection Hcopy as <- _. simpl.
    assert (Ha : Storage a ≠ 0).
    { unfold IsValid in Hvalid. by apply negb_true_iff, Z.eqb_neq in Hvalid. }
    repeat split; try done.
    + unfold IsValid. simpl. by apply negb_true_iff, Z.eqb_neq.
    + unfold Any.TryGet. simpl. by destruct (TSet_Contains _ _).
    + unfold Any.TryGet. simpl. by destruct (TSet_Contains _ _).
  - unfold FAny_copy in Hcopy. by rewrite Hvalid, Hc in Hcopy.
Qed.


(** X4. On every value the interface can produce, a bound [CopyConstruct]
    comes with the [Destruct] of the same type and facilities, the main
    type is the type they were instantiated for, and the value is
    retrievable as that type and as each of its explicit bases. *)
Theorem FAny_reachable_typed_bases (a : FAny) (c : FAnyLambda) :
  FAny_reachable a →
  CopyConstruct a = Some c →
  Destruct a = Some c ∧
  MainType a = TTypeOf (cap_T c) ∧
  Any.TryGet (cap_T c) a = Storage a ∧
  ∀ B, B ∈ ExplicitBases (cap_T c) → Any.TryGet B a = Storage a.
Proof.
  intros Hreach Hc.
  destruct (FAny_reachable_typed a Hreach) as [_ Htyped].
  destruct (Htyped c Hc) as (Hd & Hm & Hb).
  destruct (FAny_reachable_inv a Hreach) as [_ Hmain].
  split; [done |]. split; [by apply Hmain |].
  unfold Any.TryGet. rewrite Hm. split; [done |].
  intros B HB. by rewrite (Hb B HB).
Qed.

(** X5. A copy is destroyed by the facilities that made it: copying a
    valid value calls the [CopyConstruct] facility on the stored pointer,
    and destroying the copy calls the [Destruct] facility of the same
    facilities on the pointer the copy facility returned. *)
Theorem FAny_copy_then_destroy (a b : FAny) (w w' : World) :
  FAny_reachable a →
  IsValid a = true →
  FAny_copy a w = Ok b w' →
  ∃ c, CopyConstruct a = Some c ∧
       Fac_CopyConstruct (cap_facilities c) (Storage a) w = (Storage b, w') ∧
       FAny_dtor b w'
         = Ok FAny_default (Fac_Destruct (cap_facilities c) (Storage b) w').
Proof.
  intros Hreach Hvalid Hcopy.
  destruct (FAny_reachable_typed a Hreach) as [_ Htyped].
  destruct (CopyConstruct a) as [c |] eqn:Hc.
  - destruct (Htyped c eq_refl) as (Hd & _).
    exists c. split; [done |].
    rewrite (FAny_copy_valid _ c) in Hcopy by done.
    destruct (Fac_CopyConstruct _ _ _) as [p w1].
    destruct (p =? 0); [done |].
    injection Hcopy as <- <-. simpl. split; [done |].
    rewrite FAny_dtor_eq. simpl. by rewrite Hd.
  - unfold FAny_copy in Hcopy. by rewrite Hvalid, Hc in Hcopy.
Qed.



Section LookupFacts.

Lemma lookups_omap {V} (m : gmap N V) (l : list N) :
  (λ i, m !! i) <$> filter (λ i, Contains m i = true) l
    = Some <$> omap (λ i, m !! i) l.
Proof.
  induction l as [| i l IH]; [done |].
  rewrite filter_cons. simpl.
  destruct (decide (Contains m i = true)) as [Hi | Hi].
  - apply Contains_true in Hi as [v Hv]. rewrite fmap_cons, IH, Hv. done.
  - apply not_true_is_false, Contains_false in Hi. by rewrite Hi.
Qed.

Lemma filter_Contains_nil {V} (m : gmap N V) (l : list N) :
  filter (λ i, Contains m i = true) l = [] → omap (λ i, m !! i) l = [].
Proof.
  intros Hnil. pose proof (lookups_omap m l) as H. rewrite Hnil in H.
  simpl in H. symmetry in H. by apply fmap_nil_inv in H.
Qed.

Lemma GetAliasedComponents_held typeHash c :
  ∃ c', GetAliasedComponents typeHash c
        = (Some <$> omap (λ i, Components c !! i)
                         (default [] (ComponentAliases c !! typeHash)), c') ∧
        Components c' = Components c ∧
        LastAddedComponentHash c' = LastAddedComponentHash c ∧
        ComponentLogistics c' = ComponentLogistics c ∧
        OnComponentAdded c' = OnComponentAdded c ∧
        (∀ h, h ≠ typeHash →
           ComponentAliases c' !! h = ComponentAliases c !! h) ∧
        ComponentAliases c' !! typeHash =
          match filter (λ i, Contains (Components c) i = true)
                       (default [] (ComponentAliases c !! typeHash)) with
          | [] => None
          | l => Some l
          end.
Proof.
  unfold GetAliasedComponents, HasComponentAlias.
  destruct (ComponentAliases c !! typeHash) as [l |] eqn:Hl.
  - change (default [] (Some l)) with l.
    pose proof (lookups_omap (Components c) l) as Hlook.
    destruct (filter _ l) as [| i l'] eqn:Hfilter.
    + exists (set_ComponentAliases
                (delete typeHash (ComponentAliases c)) c).
      split; [by rewrite (filter_Contains_nil _ _ Hfilter) |].
      cbn [Components ComponentAliases LastAddedComponentHash
           ComponentLogistics OnComponentAdded set_ComponentAliases].
      rewrite lookup_delete_eq. repeat split; try done.
      intros h Hne. by rewrite lookup_delete_ne.
    + exists (set_ComponentAliases
                (<[typeHash := i :: l']> (ComponentAliases c)) c).
      cbn [Components ComponentAliases LastAddedComponentHash
           ComponentLogistics OnComponentAdded set_ComponentAliases].
      rewrite lookup_insert_eq. split; [f_equal; exact Hlook |].
      repeat split; try done.
      intros h Hne. by rewrite lookup_insert_ne.
  - exists c. rewrite Hl. by repeat split.
Qed.

Lemma GetComponents_held T c :
  ∃ c', GetComponents T c = (Some (components_of T c), c') ∧
        Components c' = Components c ∧
        LastAddedComponentHash c' = LastAddedComponentHash c ∧
        ComponentLogistics c' = ComponentLogistics c ∧
        OnComponentAdded c' = OnComponentAdded c ∧
        (∀ h, h ≠ TTypeHash T →
           ComponentAliases c' !! h = ComponentAliases c !! h) ∧
        ComponentAliases c' !! TTypeHash T =
          match filter (λ i, Contains (Components c) i = true)
                       (default [] (ComponentAliases c !! TTypeHash T)) with
          | [] => None
          | l => Some l
          end.
Proof.
  destruct (GetAliasedComponents_held (TTypeHash T) c) as (c' & Hal & Hrest).
  exists c'. split; [| done].
  unfold GetComponents, GetComponentsDynamic. rewrite Hal.
  assert (Hexact : GetExactComponent (TTypeHash T) c
                   = Some <$> omap (λ i, Components c !! i) [TTypeHash T]).
  { unfold GetExactComponent, HasExactComponent. simpl.
    destruct (Contains (Components c) (TTypeHash T)) eqn:Hc.
    - apply Contains_true in Hc as [v Hv]. by rewrite Hv.
    - apply Contains_false in Hc. by rewrite Hc. }
  rewrite Hexact, <- fmap_app, mapM_TryGet.
  unfold components_of, held.
  by rewrite <- omap_app.
Qed.

Lemma TryGet_held T c :
  ∃ c', Composition.TryGet T c
        = (Some (default nullptr (head (components_of T c))), c') ∧
        Components c' = Components c.
Proof.
  destruct (GetComponents_held T c) as (c' & Hget & HC & _).
  exists c'. unfold Composition.TryGet. by rewrite Hget.
Qed.

Lemma held_exact typeHash c a :
  Components c !! typeHash = Some a →
  held typeHash c
    = a :: omap (λ i, Components c !! i)
                (default [] (ComponentAliases c !! typeHash)).
Proof. intros Ha. unfold held. simpl. by rewrite Ha. Qed.

Lemma elem_of_held typeHash c a :
  a ∈ held typeHash c ↔
  ∃ i, Components c !! i = Some a ∧
       (i = typeHash ∨
        ∃ l, ComponentAliases c !! typeHash = Some l ∧ i ∈ l).
Proof.
  unfold held. rewrite list_elem_of_omap. split.
  - intros (i & Hin & Ha). exists i. split; [done |].
    apply elem_of_cons in Hin as [-> | Hin]; [by left | right].
    destruct (ComponentAliases c !! typeHash) as [l |]; [eauto |].
    by apply elem_of_nil in Hin.
  - intros (i & Ha & [-> | (l & Hl & Hin)]).
    + exists typeHash. split; [left | done].
    + exists i. split; [| done]. right. by rewrite Hl.
Qed.

Lemma elem_of_components_of T c p :
  p ∈ components_of T c ↔
  p ≠ nullptr ∧ ∃ a, a ∈ held (TTypeHash T) c ∧ Any.TryGet T a = p.
Proof.
  unfold components_of. rewrite list_elem_of_filter, list_elem_of_fmap.
  split.
  - intros (Hp & a & -> & Ha). eauto.
  - intros (Hp & a & Ha & <-). eauto.
Qed.



Lemma listed_stable mainType validAs : aliasing_stable (listed mainType validAs).
Proof.
  intros m v c (l & Hl & Hin). unfold listed, AddComponentAlias.
  destruct (decide (v = validAs)) as [-> | Hne].
  - rewrite Hl. cbn [ComponentAliases set_ComponentAliases].
    rewrite lookup_insert_eq. eexists. split; [done |].
    apply elem_of_app. by left.
  - exists l. destruct (ComponentAliases c !! v);
      cbn [ComponentAliases set_ComponentAliases];
      by rewrite lookup_insert_ne.
Qed.

Lemma AddComponentAlias_listed mainType validAs c :
  listed mainType validAs (AddComponentAlias mainType validAs c).
Proof.
  unfold listed, AddComponentAlias.
  destruct (ComponentAliases c !! validAs) as [l |];
    cbn [ComponentAliases set_ComponentAliases];
    rewrite lookup_insert_eq; eexists; (split; [done |]).
  - apply elem_of_app. right. by left.
  - by left.
Qed.

Lemma alias_bases_listed T mainType c B :
  B ∈ ExplicitBases T →
  listed mainType (TTypeHash B)
    (ForEachExplicitBase T
       (λ Base, AddComponentAlias mainType (TTypeHash Base)) c).
Proof.
  unfold ForEachExplicitBase. revert c.
  induction (ExplicitBases T) as [| B' l IH]; intros c Hin.
  - by apply elem_of_nil in Hin.
  - simpl. apply elem_of_cons in Hin as [-> | Hin]; [| by apply IH].
    assert (Hfold : ∀ l' c',
      listed mainType (TTypeHash B') c' →
      listed mainType (TTypeHash B')
        (foldl (λ acc Base, AddComponentAlias mainType (TTypeHash Base) acc)
               c' l')).
    { induction l' as [| X l' IH']; intros c' Hc'; [done |].
      simpl. by apply IH', listed_stable. }
    apply Hfold, AddComponentAlias_listed.
Qed.

Lemma set_Components_id c : set_Components (Components c) c = c.
Proof. by destruct c. Qed.

Lemma AddComponent_shape this T p fac self w :
  p ≠ nullptr → HasExactComponent (TTypeHash T) self = false →
  let c0 := set_LastAddedComponentHash (TTypeHash T)
              (Components_Add (TTypeHash T) (FAny_ctor T p fac) self) in
  let c1 := if CHasBases T
            then ForEachExplicitBase T
                   (λ Base, AddComponentAlias (TTypeHash T) (TTypeHash Base)) c0
            else c0 in
  ∃ boxed w1,
    match OnComponentAdded self with
    | Some hook => hook (FAny_ctor T p fac) w = (boxed, w1)
    | None => boxed = FAny_ctor T p fac ∧ w1 = w
    end ∧
    AddComponent this T p fac self w =
      Ok (let c2 := set_Components
                      (<[TTypeHash T := boxed]> (Components self)) c1 in
          if registers_logistics T
          then ComponentLogistics_Add (TTypeHash T)
                 {| unboxedComponent := p; log_MainType := T |} c2
          else c2)
         (if CCompatibleExplicitComponent (Traits T)
          then record (EvOnCreatedAt (TTypeHash T) p this) w1
          else w1).
Proof.
  intros Hp Hexact c0 c1. apply Z.eqb_neq in Hp.
  unfold AddComponent.
  rewrite (bind_Ok _ _ tt w w) by (by rewrite Hp).
  rewrite (bind_Ok _ _ tt w w) by (by rewrite Hexact).
  rewrite (bind_Ok _ _ _ w w (FAny_move_eq _ _)).
  cbn [fst snd].
  rewrite (bind_Ok _ _ _ w w (FAny_dtor_default _)).
  rewrite FAny_ctor_TryGet.
  fold c0. fold c1.
  assert (Hc1 : Components c1
                  = <[TTypeHash T := FAny_ctor T p fac]> (Components self) ∧
                ComponentLogistics c1 = ComponentLogistics self ∧
                OnComponentAdded c1 = OnComponentAdded self).
  { subst c1. destruct (CHasBases T); [| done].
    apply alias_bases_stable; [| done].
    intros m v c.
    by destruct (AddComponentAlias_keeps m v c) as (-> & -> & -> & _). }
  destruct Hc1 as (HC & HL & HO).
  unfold registers_logistics. rewrite HO.
  destruct (OnComponentAdded self) as [hook |] eqn:Hhook.
  - destruct (hook (FAny_ctor T p fac) w) as [boxed w1] eqn:Hcall.
    exists boxed, w1. split; [done |].
    rewrite (bind_Ok _ _ (set_Components
                            (<[TTypeHash T := boxed]> (Components c1)) c1) w w1).
    2:{ unfold bind, lift. by rewrite Hcall. }
    rewrite HC, insert_insert_eq.
    destruct (CCompatibleExplicitComponent (Traits T)); simpl;
      [destruct (CCopyAwareComponent T || CMoveAwareComponent T) |];
      unfold bind, emit, ret, record; simpl; by rewrite ?HL.
  - exists (FAny_ctor T p fac), w. split; [done |].
    rewrite (bind_Ok _ _ c1 w w) by done.
    rewrite <- HC, set_Components_id.
    destruct (CCompatibleExplicitComponent (Traits T)); simpl;
      [destruct (CCopyAwareComponent T || CMoveAwareComponent T) |];
      unfold bind, emit, ret, record; simpl; by rewrite ?HL.
Qed.

End LookupFacts.

Section AddFacts.

Lemma components_of_exact T c a :
  Components c !! TTypeHash T = Some a →
  Any.TryGet T a ≠ nullptr →
  head (components_of T c) = Some (Any.TryGet T a).
Proof.
  intros Ha Hp. unfold components_of. rewrite (held_exact _ _ _ Ha).
  rewrite fmap_cons, filter_cons_True by done. done.
Qed.

Lemma AddComponent_result this T p fac self w self' w' :
  OnComponentAdded self = None →
  AddComponent this T p fac self w = Ok self' w' →
  p ≠ nullptr ∧
  Components self !! TTypeHash T = None ∧
  Components self' = <[TTypeHash T := FAny_ctor T p fac]> (Components self) ∧
  (∀ i v, listed i v self → listed i v self') ∧
  (∀ B, B ∈ ExplicitBases T → listed (TTypeHash T) (TTypeHash B) self') ∧
  LastAddedComponentHash self' = TTypeHash T ∧
  OnComponentAdded self' = None ∧
  ComponentLogistics self' =
    (if registers_logistics T
     then <[TTypeHash T := {| unboxedComponent := p; log_MainType := T |}]>
            (ComponentLogistics self)
     else ComponentLogistics self) ∧
  w' = (if CCompatibleExplicitComponent (Traits T)
        then record (EvOnCreatedAt (TTypeHash T) p this) w
        else w).
Proof.
  intros Hhook Hadd.
  destruct (AddComponent_Ok_inv _ _ _ _ _ _ _ _ Hadd) as [Hp Hexact].
  destruct (AddComponent_shape this T p fac self w Hp Hexact)
    as (boxed & w1 & Hboxed & Hshape).
  rewrite Hhook in Hboxed. destruct Hboxed as [-> ->].
  rewrite Hadd in Hshape. injection Hshape as -> ->.
  split; [done |]. split; [by apply Contains_false |].
  set (c0 := set_LastAddedComponentHash _ _).
  set (c1 := if CHasBases T then _ else c0).
  assert (Hkeep : ComponentLogistics c1 = ComponentLogistics self ∧
                  LastAddedComponentHash c1 = TTypeHash T ∧
                  OnComponentAdded c1 = None).
  { subst c1. destruct (CHasBases T); [| done].
    apply alias_bases_stable; [| done].
    intros m v c.
    by destruct (AddComponentAlias_keeps m v c) as (_ & -> & -> & ->). }
  destruct Hkeep as (HL1 & HA1 & HO1).
  assert (Hmono : ∀ i v, listed i v self → listed i v c1).
  { intros i v Hl. subst c1. destruct (CHasBases T); [| done].
    apply alias_bases_stable; [apply listed_stable | done]. }
  assert (Hbases : ∀ B, B ∈ ExplicitBases T →
                        listed (TTypeHash T) (TTypeHash B) c1).
  { intros B HB. subst c1. destruct (CHasBases T) eqn:HT.
    - by apply alias_bases_listed.
    - rewrite ExplicitBases_no_Bases in HB by done.
      by apply elem_of_nil in HB. }
  assert (Hlisted : ∀ final i v,
            ComponentAliases final = ComponentAliases c1 →
            listed i v c1 → listed i v final).
  { intros final i v Hal. unfold listed. by rewrite Hal. }
  destruct (registers_logistics T), (CCompatibleExplicitComponent (Traits T));
    cbn [Components ComponentLogistics ComponentAliases LastAddedComponentHash
         OnComponentAdded set_Components set_ComponentLogistics
         ComponentLogistics_Add set_ComponentLogistics_order];
    (split; [done |]);
    (split; [intros i v Hl; by apply Hlisted, Hmono |]);
    (split; [intros B HB; by apply Hlisted, Hbases |]);
    rewrite ?HL1, ?HA1, ?HO1; by repeat split.
Qed.

Lemma held_grows_AddComponent this T p fac self w self' w' typeHash a :
  OnComponentAdded self = None →
  AddComponent this T p fac self w = Ok self' w' →
  a ∈ held typeHash self → a ∈ held typeHash self'.
Proof.
  intros Hhook Hadd.
  destruct (AddComponent_result _ _ _ _ _ _ _ _ Hhook Hadd)
    as (_ & Hfree & HC & Hmono & _).
  rewrite !elem_of_held. intros (i & Ha & Hi).
  exists i. split.
  - rewrite HC, lookup_insert_ne; [done |]. intros <-. congruence.
  - destruct Hi as [-> | Hl]; [by left | right]. by apply Hmono.
Qed.

End AddFacts.

(** X6. A component that was added is found again: after a successful
    [AddComponent<T>] (no [OnComponentAdded] hook set) the pointer is not
    null, [TryGet<T>()] returns it and [Get<T>()] returns it without
    failing. *)
Theorem AddComponent_then_TryGet (this : ptr) (T : CppType) (p : ptr)
    (fac : TAnyTypeFacilities) (self self' : IComposable) (w w' : World) :
  OnComponentAdded self = None →
  AddComponent this T p fac self w = Ok self' w' →
  p ≠ nullptr ∧
  (Composition.TryGet T self').1 = Some p ∧
  ∃ c, Get T self' w' = Ok (p, c) w'.
Proof.
  intros Hhook Hadd.
  destruct (AddComponent_result _ _ _ _ _ _ _ _ Hhook Hadd)
    as (Hp & _ & HC & _).
  assert (Hheld : Components self' !! TTypeHash T = Some (FAny_ctor T p fac))
    by (rewrite HC; apply lookup_insert_eq).
  destruct (TryGet_held T self') as (c & Htry & _).
  rewrite (components_of_exact T self' _ Hheld) in Htry
    by (by rewrite FAny_ctor_TryGet).
  rewrite FAny_ctor_TryGet in Htry. simpl in Htry.
  split; [done |]. split; [by rewrite Htry |].
  exists c. unfold Get. rewrite Htry.
  apply Z.eqb_neq in Hp. unfold bind, ASSERT_CRASH. by rewrite Hp.
Qed.

(** X7. What [AddComponent<T>] calls and records (no [OnComponentAdded]
    hook set): [OnCreatedAt] once, on the new component with the owner,
    when [T] is a compatible explicit component and nothing otherwise;
    logistics under the hash of [T] exactly when [T] also has [OnCopiedAt]
    or [OnMovedAt]; and [T] becomes the last added component. *)
Theorem AddComponent_callbacks (this : ptr) (T : CppType) (p : ptr)
    (fac : TAnyTypeFacilities) (self self' : IComposable) (w w' : World) :
  OnComponentAdded self = None →
  AddComponent this T p fac self w = Ok self' w' →
  w' = (if CCompatibleExplicitComponent (Traits T)
        then record (EvOnCreatedAt (TTypeHash T) p this) w
        else w) ∧
  ComponentLogistics self' =
    (if CCompatibleExplicitComponent (Traits T)
        && (HasOnCopiedAt (Traits T) || HasOnMovedAt (Traits T))
     then <[TTypeHash T := {| unboxedComponent := p; log_MainType := T |}]>
            (ComponentLogistics self)
     else ComponentLogistics self) ∧
  LastAddedComponentHash self' = TTypeHash T.
Proof.
  intros Hhook Hadd.
  destruct (AddComponent_result _ _ _ _ _ _ _ _ Hhook Hadd)
    as (_ & _ & _ & _ & _ & HA & _ & HL & Hw).
  split; [done |]. split; [| done].
  rewrite HL. unfold registers_logistics, CCopyAwareComponent,
    CMoveAwareComponent.
  by destruct (CCompatibleExplicitComponent (Traits T)),
       (HasOnCopiedAt (Traits T)), (HasOnMovedAt (Traits T)).
Qed.

(** X8. After a successful [AddComponent<T>] (no hook set) the component
    is among [GetComponents<B>()] for every explicit base [B] of [T],
    bases of bases included. *)
Theorem AddComponent_registers_bases (this : ptr) (T B : CppType) (p : ptr)
    (fac : TAnyTypeFacilities) (self self' : IComposable) (w w' : World) :
  OnComponentAdded self = None →
  AddComponent this T p fac self w = Ok self' w' →
  B ∈ ExplicitBases T →
  ∃ ptrs c, GetComponents B self' = (Some ptrs, c) ∧ p ∈ ptrs.
Proof.
  intros Hhook Hadd HB.
  destruct (AddComponent_result _ _ _ _ _ _ _ _ Hhook Hadd)
    as (Hp & _ & HC & _ & Hbases & _).
  destruct (GetComponents_held B self') as (c & Hget & _).
  exists (components_of B self'), c. split; [done |].
  apply elem_of_components_of. split; [done |].
  exists (FAny_ctor T p fac). split.
  - apply elem_of_held. exists (TTypeHash T).
    split; [rewrite HC; apply lookup_insert_eq |].
    right. by apply Hbases.
  - unfold Any.TryGet.
    by rewrite (FAny_ctor_bases T p fac B HB), FAny_ctor_Storage.
Qed.

(** X9. Adding a component hides nothing: every pointer
    [GetComponents<U>()] yielded before a successful [AddComponent<T>]
    (no hook set) is still yielded after it, for every type [U]. *)
Theorem AddComponent_keeps_lookups (this : ptr) (T U : CppType) (p : ptr)
    (fac : TAnyTypeFacilities) (self self' : IComposable) (w w' : World) :
  OnComponentAdded self = None →
  AddComponent this T p fac self w = Ok self' w' →
  ∃ before after c1 c2,
    GetComponents U self = (Some before, c1) ∧
    GetComponents U self' = (Some after, c2) ∧
    ∀ q, q ∈ before → q ∈ after.
Proof.
  intros Hhook Hadd.
  destruct (GetComponents_held U self) as (c1 & Hget1 & _).
  destruct (GetComponents_held U self') as (c2 & Hget2 & _).
  exists (components_of U self), (components_of U self'), c1, c2.
  split; [done |]. split; [done |].
  intros q. rewrite !elem_of_components_of.
  intros (Hq & a & Ha & Htry). split; [done |].
  exists a. split; [| done].
  by apply (held_grows_AddComponent _ _ _ _ _ _ _ _ _ _ Hhook Hadd).
Qed.

(** X10. A type that is neither the exact type of a component nor an
    alias: [GetComponents] is empty, [TryGet] is null, the composable is
    left as it was, and [Get] fails with a message naming the type. *)
Theorem lookup_miss (T : CppType) (c : IComposable) (w : World) :
  Components c !! TTypeHash T = None →
  ComponentAliases c !! TTypeHash T = None →
  GetComponents T c = (Some [], c) ∧
  Composition.TryGet T c = (Some nullptr, c) ∧
  Get T c w = Fatal ("Component " +:+ TTypeName T +:+ " was unavailable.").
Proof.
  intros Hexact Halias.
  assert (Hget : GetComponents T c = (Some [], c)).
  { unfold GetComponents, GetComponentsDynamic, GetExactComponent,
      HasExactComponent, GetAliasedComponents, HasComponentAlias.
    rewrite (proj2 (Contains_false _ _) Hexact), Halias. done. }
  assert (Htry : Composition.TryGet T c = (Some nullptr, c)).
  { unfold Composition.TryGet. by rewrite Hget. }
  split; [done |]. split; [done |].
  unfold Get. by rewrite Htry.
Qed.


Section AliasFacts.

Lemma TSet_Contains_eqb s t v :
  FType_eqb t v = true → TSet_Contains s t = TSet_Contains s v.
Proof.
  unfold FType_eqb. intros Heq%N.eqb_eq. unfold TSet_Contains, FType_eqb.
  by rewrite Heq.
Qed.

Lemma AddAlias_Contains_eq alias a v :
  TSet_Contains (ValidTypes (Any.AddAlias alias a)) v
    = TSet_Contains (ValidTypes a) v || FType_eqb alias v.
Proof.
  unfold Any.AddAlias, TSet_Add.
  destruct (TSet_Contains (ValidTypes a) alias) eqn:E; simpl.
  - destruct (FType_eqb alias v) eqn:Heq.
    + rewrite <- (TSet_Contains_eqb _ _ _ Heq), E. done.
    + by rewrite orb_false_r.
  - unfold TSet_Contains. rewrite existsb_app. simpl.
    by rewrite orb_false_r.
Qed.

Lemma alias_fold_Contains_eq (Ts : list CppType) a V :
  TSet_Contains
    (ValidTypes (foldl (λ acc T, Any.AddAlias (TTypeOf T) acc) a Ts))
    (TTypeOf V)
  = TSet_Contains (ValidTypes a) (TTypeOf V) || names_type Ts V.
Proof.
  revert a. induction Ts as [| T Ts IH]; intros a; simpl.
  - by rewrite orb_false_r.
  - rewrite IH, AddAlias_Contains_eq. unfold FType_eqb.
    rewrite !TTypeOf_Hash. by rewrite orb_assoc.
Qed.

Lemma alias_fold_keeps (Ts : list CppType) a :
  let a' := foldl (λ acc T, Any.AddAlias (TTypeOf T) acc) a Ts in
  Storage a' = Storage a ∧ MainType a' = MainType a ∧
  Destruct a' = Destruct a ∧ CopyConstruct a' = CopyConstruct a.
Proof.
  apply (alias_fold_stable
           (λ x, Storage x = Storage a ∧ MainType x = MainType a ∧
                 Destruct x = Destruct a ∧ CopyConstruct x = CopyConstruct a));
    [| done].
  intros alias x.
  by rewrite AddAlias_Storage, AddAlias_MainType, AddAlias_Destruct,
       AddAlias_CopyConstruct.
Qed.

Lemma names_type_no_Bases T V :
  CHasBases T = false → names_type (ExplicitBases T) V = false.
Proof. intros HT. by rewrite ExplicitBases_no_Bases. Qed.

Lemma WithAlias_Contains_eq U a V :
  TSet_Contains (ValidTypes (WithAlias U a)) (TTypeOf V)
    = TSet_Contains (ValidTypes a) (TTypeOf V)
      || names_type (U :: ExplicitBases U) V.
Proof.
  unfold WithAlias. destruct (CHasBases U) eqn:HU.
  - unfold ForEachExplicitBase.
    rewrite alias_fold_Contains_eq, AddAlias_Contains_eq.
    unfold FType_eqb. rewrite !TTypeOf_Hash. simpl. by rewrite orb_assoc.
  - rewrite AddAlias_Contains_eq. unfold FType_eqb. rewrite !TTypeOf_Hash.
    simpl. by rewrite (names_type_no_Bases U V HU), orb_false_r.
Qed.

Lemma WithAlias_keeps U a :
  Storage (WithAlias U a) = Storage a ∧ MainType (WithAlias U a) = MainType a ∧
  Destruct (WithAlias U a) = Destruct a ∧
  CopyConstruct (WithAlias U a) = CopyConstruct a.
Proof.
  apply (WithAlias_stable
           (λ x, Storage x = Storage a ∧ MainType x = MainType a ∧
                 Destruct x = Destruct a ∧ CopyConstruct x = CopyConstruct a));
    [| done].
  intros alias x.
  by rewrite AddAlias_Storage, AddAlias_MainType, AddAlias_Destruct,
       AddAlias_CopyConstruct.
Qed.

Lemma FAny_ctor_Contains_eq T p fac V :
  TSet_Contains (ValidTypes (FAny_ctor T p fac)) (TTypeOf V)
    = names_type (T :: ExplicitBases T) V.
Proof.
  unfold FAny_ctor. destruct (CHasBases T) eqn:HT.
  - unfold ForEachExplicitBase. rewrite alias_fold_Contains_eq. simpl.
    unfold FType_eqb. rewrite !TTypeOf_Hash. by rewrite orb_false_r.
  - simpl. unfold FType_eqb. rewrite !TTypeOf_Hash.
    by rewrite (names_type_no_Bases T V HT).
Qed.

End AliasFacts.

(** X3. [WithAlias<U>()] keeps the stored pointer and the main type, and
    makes the value retrievable as [U] and as every explicit base of [U],
    recursively; every other type is answered as before. *)
Theorem WithAlias_valid_types (U : CppType) (a : FAny) :
  Storage (WithAlias U a) = Storage a ∧
  MainType (WithAlias U a) = MainType a ∧
  ∀ V, Any.TryGet V (WithAlias U a) =
         if names_type (U :: ExplicitBases U) V
         then Storage a
         else Any.TryGet V a.
Proof.
  destruct (WithAlias_keeps U a) as (Hs & Hm & _).
  split; [done |]. split; [done |].
  intros V. unfold Any.TryGet. rewrite WithAlias_Contains_eq, Hs.
  destruct (names_type _ V); [by rewrite orb_true_r | by rewrite orb_false_r].
Qed.

(** X19. [FAny::With(TTypes<T...>)] registers the listed types and nothing
    else, their bases not included: the value is retrievable as the types
    that have the hash of a listed type, every other type is answered as
    before. *)
Theorem With_valid_types (Ts : list CppType) (a : FAny) :
  Storage (Any.With Ts a) = Storage a ∧
  ∀ V, Any.TryGet V (Any.With Ts a) =
         if names_type Ts V then Storage a else Any.TryGet V a.
Proof.
  destruct (alias_fold_keeps Ts a) as (Hs & _).
  split; [done |].
  intros V. unfold Any.TryGet, Any.With.
  rewrite alias_fold_Contains_eq, Hs.
  destruct (names_type _ V); [by rewrite orb_true_r | by rewrite orb_false_r].
Qed.

(** X20. A freshly boxed value is retrievable exactly as its type and the
    types of its flattened explicit base list. *)
Theorem FAny_ctor_valid_types (T V : CppType) (p : ptr)
    (fac : TAnyTypeFacilities) :
  Any.TryGet V (FAny_ctor T p fac) =
    if names_type (T :: ExplicitBases T) V then p else nullptr.
Proof.
  unfold Any.TryGet. by rewrite FAny_ctor_Contains_eq, FAny_ctor_Storage.
Qed.

Section CompatibleFacts.

Lemma FType_range_TTypeOf T :
  FType_range (TTypeOf T) = take 64 (TTypeHash <$> ExplicitBases T).
Proof.
  destruct (FType_ctor_inv T) as (ft & Hft & _ & _ & _ & _ & Hrange).
  unfold TTypeOf. by rewrite Hft.
Qed.

Lemma IsCompatibleWith_base (a b : FType) :
  Hash b ∈ FType_range a →
  IsCompatibleWith a b = true ∧ IsCompatibleWith b a = true.
Proof.
  intros Hin. apply existsb_hash in Hin.
  unfold IsCompatibleWith. rewrite Hin.
  destruct (Hash a =? Hash b)%N, (Hash b =? Hash a)%N; try done;
    by destruct (existsb _ (FType_range b)).
Qed.

End CompatibleFacts.

(** X17. A type is compatible, both ways, with each of the first 64 types
    of its flattened explicit base list. *)
Theorem IsCompatibleWith_explicit_base (T B : CppType) :
  B ∈ take 64 (ExplicitBases T) →
  IsCompatibleWith (TTypeOf T) (TTypeOf B) = true ∧
  IsCompatibleWith (TTypeOf B) (TTypeOf T) = true.
Proof.
  intros HB. apply IsCompatibleWith_base.
  rewrite FType_range_TTypeOf, TTypeOf_Hash, <- fmap_take.
  apply list_elem_of_fmap. by exists B.
Qed.

Section AliasTableFacts.

Lemma AddAlias_guard Ts self w :
  LastAddedComponentHash self = 0%N ∨
  Components self !! LastAddedComponentHash self = None →
  Composition.AddAlias Ts self w
    = Fatal "Component aliases were listed, but no components were added before.".
Proof.
  intros Hguard. unfold Composition.AddAlias, bind at 1, ASSERT_CRASH.
  destruct Hguard as [-> | Hnone]; [done |].
  rewrite (proj2 (Contains_false _ _) Hnone). by rewrite andb_false_r.
Qed.

Lemma lookup_miss_empty T c :
  Components c = ∅ → ComponentAliases c = ∅ →
  GetComponents T c = (Some [], c) ∧
  Composition.TryGet T c = (Some nullptr, c).
Proof.
  intros HC HA.
  assert (Hget : GetComponents T c = (Some [], c)).
  { unfold GetComponents, GetComponentsDynamic, GetExactComponent,
      HasExactComponent, GetAliasedComponents, HasComponentAlias.
    rewrite HA, lookup_empty.
    rewrite (proj2 (Contains_false (Components c) (TTypeHash T)))
      by (by rewrite HC, lookup_empty).
    done. }
  split; [done |]. unfold Composition.TryGet. by rewrite Hget.
Qed.

End AliasTableFacts.

(** X11. [HasComponentAlias] answers true exactly when some hash listed
    under the alias has a component; afterwards the alias lists exactly
    the listed hashes that have a component, in their order, or is gone
    when there is none; other aliases and the components are untouched. *)
Theorem HasComponentAlias_heals (typeHash : N) (c : IComposable) :
  let found := (HasComponentAlias typeHash c).1 in
  let c' := (HasComponentAlias typeHash c).2 in
  let kept := filter (λ i, Contains (Components c) i = true)
                     (default [] (ComponentAliases c !! typeHash)) in
  (found = true ↔
     ∃ i, listed i typeHash c ∧ is_Some (Components c !! i)) ∧
  (∀ i, i ∈ kept ↔ listed i typeHash c ∧ is_Some (Components c !! i)) ∧
  ComponentAliases c' !! typeHash = (if found then Some kept else None) ∧
  (∀ h, h ≠ typeHash →
     ComponentAliases c' !! h = ComponentAliases c !! h) ∧
  Components c' = Components c.
Proof.
  intros found c' kept.
  assert (Hkept : ∀ i, i ∈ kept ↔
            listed i typeHash c ∧ is_Some (Components c !! i)).
  { intros i. subst kept. rewrite list_elem_of_filter, Contains_true.
    unfold listed. destruct (ComponentAliases c !! typeHash) as [l |]; simpl.
    - split.
      + intros [Hi Hin]. split; [by exists l | done].
      + intros [(l' & [= <-] & Hin) Hi]. done.
    - split.
      + intros [_ Hin]. by apply elem_of_nil in Hin.
      + by intros [(l' & Hl' & _) _]. }
  assert (Hshape : found = match kept with [] => false | _ => true end ∧
            ComponentAliases c' !! typeHash
              = (if found then Some kept else None) ∧
            (∀ h, h ≠ typeHash →
               ComponentAliases c' !! h = ComponentAliases c !! h) ∧
            Components c' = Components c).
  { subst found c' kept. unfold HasComponentAlias.
    destruct (ComponentAliases c !! typeHash) as [l |] eqn:Hl.
    - change (default [] (Some l)) with l.
      destruct (filter _ l) as [| i l'];
        cbn [fst snd Components ComponentAliases set_ComponentAliases].
      + rewrite lookup_delete_eq. repeat split; try done.
        intros h Hne. by rewrite lookup_delete_ne.
      + rewrite lookup_insert_eq. repeat split; try done.
        intros h Hne. by rewrite lookup_insert_ne.
    - simpl. rewrite Hl. by repeat split. }
  destruct Hshape as (Hfound & Hrest).
  split; [| split; [done | done]].
  rewrite Hfound. split.
  - destruct kept as [| i l] eqn:Hk; [done |]. intros _.
    exists i. apply Hkept. by left.
  - intros (i & Hi). apply Hkept in Hi.
    destruct kept; [by apply elem_of_nil in Hi | done].
Qed.


(** X13. The fluent chain: after a successful [AddComponent<T>] (no hook
    set, the hash of [T] not zero), [AddAlias<U>] succeeds, the component
    is among [GetComponents<B>()] for [U] and every explicit base [B] of
    [U], and [TryGet<T>()] still returns it. *)
Theorem AddComponent_then_AddAlias (this : ptr) (T U : CppType) (p : ptr)
    (fac : TAnyTypeFacilities) (self self' : IComposable) (w w' : World) :
  OnComponentAdded self = None →
  AddComponent this T p fac self w = Ok self' w' →
  TTypeHash T ≠ 0%N →
  ∃ self'',
    Composition.AddAlias [U] self' w' = Ok self'' w' ∧
    (∀ B, B ∈ U :: ExplicitBases U →
       ∃ ptrs c, GetComponents B self'' = (Some ptrs, c) ∧ p ∈ ptrs) ∧
    (Composition.TryGet T self'').1 = Some p.
Proof.
  intros Hhook Hadd Hhash.
  destruct (AddComponent_result _ _ _ _ _ _ _ _ Hhook Hadd)
    as (Hp & _ & HC & _ & _ & HA & _).
  assert (Hheld : Components self' !! TTypeHash T = Some (FAny_ctor T p fac))
    by (rewrite HC; apply lookup_insert_eq).
  set (ca := AddComponentAlias (TTypeHash T) (TTypeHash U)
               (set_Components
                  (<[TTypeHash T := WithAlias U (FAny_ctor T p fac)]>
                     (Components self')) self')).
  set (final := if CHasBases U
                then ForEachExplicitBase U
                       (λ Base, AddComponentAlias (TTypeHash T) (TTypeHash Base))
                       ca
                else ca).
  assert (Hrun : Composition.AddAlias [U] self' w' = Ok final w').
  { unfold Composition.AddAlias.
    rewrite (bind_Ok _ _ tt w' w').
    2:{ rewrite HA. apply N.eqb_neq in Hhash. rewrite Hhash.
        by rewrite (proj2 (Contains_true _ _)) by (by rewrite Hheld). }
    simpl. unfold bind at 1, ret at 1. rewrite HA.
    unfold AddComponentAlias_as, bind, TMap_at. by rewrite Hheld. }
  assert (HCf : Components final
                = <[TTypeHash T := WithAlias U (FAny_ctor T p fac)]>
                    (Components self')).
  { subst final. destruct (CHasBases U).
    - apply alias_bases_stable.
      + intros m v c. by destruct (AddComponentAlias_keeps m v c) as (-> & _).
      + subst ca. by destruct (AddComponentAlias_keeps (TTypeHash T)
                                 (TTypeHash U) (set_Components
                  (<[TTypeHash T := WithAlias U (FAny_ctor T p fac)]>
                     (Components self')) self')) as (-> & _).
    - subst ca. by destruct (AddComponentAlias_keeps (TTypeHash T)
                                 (TTypeHash U) (set_Components
                  (<[TTypeHash T := WithAlias U (FAny_ctor T p fac)]>
                     (Components self')) self')) as (-> & _). }
  assert (Hlisted : ∀ B, B ∈ U :: ExplicitBases U →
                         listed (TTypeHash T) (TTypeHash B) final).
  { intros B [-> | HB]%elem_of_cons.
    - subst final. destruct (CHasBases U).
      + apply alias_bases_stable; [apply listed_stable |].
        apply AddComponentAlias_listed.
      + apply AddComponentAlias_listed.
    - subst final. destruct (CHasBases U) eqn:HU.
      + by apply alias_bases_listed.
      + rewrite ExplicitBases_no_Bases in HB by done.
        by apply elem_of_nil in HB. }
  assert (Hboxed : Components final !! TTypeHash T
                   = Some (WithAlias U (FAny_ctor T p fac)))
    by (rewrite HCf; apply lookup_insert_eq).
  assert (Hs : Storage (WithAlias U (FAny_ctor T p fac)) = p).
  { destruct (WithAlias_keeps U (FAny_ctor T p fac)) as (-> & _).
    apply FAny_ctor_Storage. }
  exists final. split; [done |]. split.
  - intros B HB.
    destruct (GetComponents_held B final) as (c & Hget & _).
    exists (components_of B final), c. split; [done |].
    apply elem_of_components_of. split; [done |].
    exists (WithAlias U (FAny_ctor T p fac)). split.
    + apply elem_of_held. exists (TTypeHash T). split; [done |].
      right. by apply Hlisted.
    + unfold Any.TryGet. rewrite WithAlias_Contains_eq, Hs.
      replace (names_type (U :: ExplicitBases U) B) with true;
        [by rewrite orb_true_r |].
      symmetry. apply existsb_exists. exists B.
      split; [by apply list_elem_of_In | apply N.eqb_refl].
  - destruct (TryGet_held T final) as (c & Htry & _).
    assert (Hget : Any.TryGet T (WithAlias U (FAny_ctor T p fac)) = p).
    { unfold Any.TryGet.
      by rewrite WithAlias_Contains_eq, FAny_ctor_Contains, Hs. }
    rewrite (components_of_exact T final _ Hboxed) in Htry
      by (by rewrite Hget).
    rewrite Htry. simpl. by rewrite Hget.
Qed.


Section CopyMapFacts.

Lemma copy_pairs_Ok l w l' w' :
  copy_pairs l w = Ok l' w' →
  Forall2 (λ x y, x.1 = y.1 ∧ copy_of x.2 y.2) l l'.
Proof.
  revert w l' w'. induction l as [| [key value] l IH]; intros w l' w'; simpl.
  - intros [= <- _]. constructor.
  - unfold bind at 1.
    destruct (FAny_copy value w) as [value' w1 |] eqn:Hcopy; [| done].
    unfold bind at 1.
    destruct (copy_pairs l w1) as [rest w2 |] eqn:Hrest; [| done].
    intros [= <- _]. constructor; [| by eapply IH].
    split; [done |]. by exists w, w1.
Qed.

Lemma copy_pairs_fatal l w key value :
  (key, value) ∈ l →
  (∀ w1, is_fatal (FAny_copy value w1)) →
  is_fatal (copy_pairs l w).
Proof.
  revert w. induction l as [| [k v] l IH]; intros w Hin Hfatal.
  - by apply elem_of_nil in Hin.
  - simpl. unfold bind at 1.
    apply elem_of_cons in Hin as [[= <- <-] | Hin].
    + specialize (Hfatal w). by destruct (FAny_copy value w).
    + destruct (FAny_copy v w) as [v' w1 |]; [| done].
      unfold bind at 1. specialize (IH w1 Hin Hfatal).
      by destruct (copy_pairs l w1).
Qed.

Lemma TMap_copy_Ok keys m w m' w' :
  TMap_copy keys m w = Ok m' w' →
  ∀ key,
    (m !! key = None → m' !! key = None) ∧
    (∀ a, m !! key = Some a → ∃ b, m' !! key = Some b ∧ copy_of a b).
Proof.
  unfold TMap_copy, bind.
  destruct (copy_pairs (TMap_range keys m) w) as [l' w1 |] eqn:Hpairs;
    [| done].
  intros [= <- _]. apply copy_pairs_Ok in Hpairs.
  assert (Hkeys : l'.*1 = (TMap_range keys m).*1).
  { clear -Hpairs. induction Hpairs as [| x y l l' [Hk _] _ IH]; [done |].
    rewrite !fmap_cons. by rewrite IH, Hk. }
  assert (Hnodup : NoDup l'.*1)
    by (rewrite Hkeys; apply NoDup_fst_TMap_range).
  intros key. split.
  - intros Hnone. apply not_elem_of_list_to_map_1. rewrite Hkeys.
    intros ((k & a) & -> & Hin%elem_of_TMap_range)%list_elem_of_fmap.
    simpl in Hnone. congruence.
  - intros a Ha%(elem_of_TMap_range keys).
    apply list_elem_of_lookup in Ha as (n & Hn).
    destruct (Forall2_lookup_l _ _ _ _ _ Hpairs Hn) as ([k b] & Hn' & Hk & Hc).
    simpl in Hk, Hc. subst k. exists b. split; [| done].
    apply elem_of_list_to_map_1; [done |].
    apply list_elem_of_lookup. by exists n.
Qed.

End CopyMapFacts.

(** X14. A copy-constructed composable holds a component under exactly
    the keys of its source, each the copy of the source's; aliases,
    logistics, last added hash and hook are those of the source. *)
Theorem IComposable_copy_components (this : ptr) (other self : IComposable)
    (w w' : World) :
  IComposable_copy this other w = Ok self w' →
  (∀ key,
     (Components other !! key = None → Components self !! key = None) ∧
     (∀ a, Components other !! key = Some a →
        ∃ b, Components self !! key = Some b ∧ copy_of a b)) ∧
  ComponentAliases self = ComponentAliases other ∧
  ComponentLogistics self = ComponentLogistics other ∧
  LastAddedComponentHash self = LastAddedComponentHash other ∧
  OnComponentAdded self = OnComponentAdded other.
Proof.
  unfold IComposable_copy, bind.
  destruct (TMap_copy (Components_order other) (Components other) w)
    as [components w1 |] eqn:Hmap; [| done].
  destruct (NotifyCopyComponents _ _ _ _); [| done].
  intros [= <- _]. simpl. split; [| done].
  by apply (TMap_copy_Ok _ _ _ _ _ Hmap).
Qed.

(** X15. A composable holding a valid component of a type that is not
    copy constructible, boxed with the default facilities, cannot be
    copied: copy construction is fatal. *)
Theorem IComposable_copy_noncopyable (this : ptr) (other : IComposable)
    (key : N) (a : FAny) (T : CppType) (w : World) :
  Components other !! key = Some a →
  IsValid a = true →
  CopyConstruct a
    = Some {| cap_T := T; cap_facilities := DefaultFacilities T |} →
  CCopyConstructible (Traits T) = false →
  is_fatal (IComposable_copy this other w).
Proof.
  intros Ha Hvalid Hc Hnocopy.
  assert (Hfatal : ∀ w1, is_fatal (FAny_copy a w1)).
  { intros w1. rewrite (FAny_copy_valid a _ w1 Hvalid Hc). simpl.
    by rewrite Hnocopy. }
  unfold IComposable_copy, bind at 1, TMap_copy, bind at 1.
  assert (Hpairs := copy_pairs_fatal
                      (TMap_range (Components_order other) (Components other))
                      w key a (proj2 (elem_of_TMap_range _ _ _ _) Ha) Hfatal).
  by destruct (copy_pairs _ w).
Qed.

(** X16. After move construction the new owner is what the source was,
    and the source answers every lookup with nothing and fails every
    [AddAlias]. *)
Theorem IComposable_move_lookups (this other_addr : ptr)
    (other self other' : IComposable) (w w' : World) :
  this ≠ other_addr →
  IComposable_move this other_addr other w = Ok (self, other') w' →
  self = other ∧
  (∀ T, GetComponents T other' = (Some [], other') ∧
        Composition.TryGet T other' = (Some nullptr, other')) ∧
  ∀ Ts w2, is_fatal (Composition.AddAlias Ts other' w2).
Proof.
  intros Hdistinct. unfold IComposable_move, NotifyMoveComponents.
  destruct (decide (this = other_addr)) as [| _]; [done |].
  rewrite (bind_Ok _ _ _ _ _ (for_each_Move_lambda _ this w)).
  intros [= <- <- _]. split; [by destruct other |]. split.
  - intros T. by apply lookup_miss_empty.
  - intros Ts w2. rewrite AddAlias_guard; [done |]. by left.
Qed.

Section AddAliasFacts.

Lemma AddComponentAlias_as_Ok ValidAs mainType self w :
  is_Some (Components self !! mainType) →
  ∃ self', AddComponentAlias_as ValidAs mainType self w = Ok self' w ∧
           LastAddedComponentHash self' = LastAddedComponentHash self ∧
           ComponentLogistics self' = ComponentLogistics self ∧
           ∀ key, is_Some (Components self' !! key)
                  ↔ is_Some (Components self !! key).
Proof.
  intros [boxed Hboxed]. unfold AddComponentAlias_as, bind, TMap_at.
  rewrite Hboxed. simpl. eexists. split; [reflexivity |].
  set (c0 := set_Components _ self).
  assert (Hstable : aliasing_stable
            (λ c, LastAddedComponentHash c = LastAddedComponentHash self ∧
                  ComponentLogistics c = ComponentLogistics self ∧
                  Components c = Components c0)).
  { intros m v c (<- & <- & <-).
    by destruct (AddComponentAlias_keeps m v c) as (-> & -> & _ & ->). }
  assert (Hfinal :
    let final := if CHasBases ValidAs
                 then ForEachExplicitBase ValidAs
                        (λ Base, AddComponentAlias mainType (TTypeHash Base))
                        (AddComponentAlias mainType (TTypeHash ValidAs) c0)
                 else AddComponentAlias mainType (TTypeHash ValidAs) c0 in
    LastAddedComponentHash final = LastAddedComponentHash self ∧
    ComponentLogistics final = ComponentLogistics self ∧
    Components final = Components c0).
  { simpl. destruct (CHasBases ValidAs).
    - apply alias_bases_stable; [done |]. by apply Hstable.
    - by apply Hstable. }
  destruct Hfinal as (HA & HL & HC). split; [done |]. split; [done |].
  intros key. rewrite HC. subst c0. cbn [Components set_Components].
  destruct (decide (key = mainType)) as [-> | Hne].
  - rewrite lookup_insert_eq, Hboxed. split; eauto.
  - by rewrite lookup_insert_ne.
Qed.

Lemma AddAlias_fold_Ok ValidAs (m : M IComposable) self0 last w :
  m w = Ok self0 w →
  LastAddedComponentHash self0 = last →
  is_Some (Components self0 !! last) →
  ∃ self',
    foldl (λ acc T, let* self := acc in
                    AddComponentAlias_as T (LastAddedComponentHash self) self)
          m ValidAs w = Ok self' w ∧
    LastAddedComponentHash self' = last ∧
    ComponentLogistics self' = ComponentLogistics self0 ∧
    ∀ key, is_Some (Components self' !! key)
           ↔ is_Some (Components self0 !! key).
Proof.
  revert m self0. induction ValidAs as [| T Ts IH]; intros m self0 Hm Hl Hc.
  - exists self0. by repeat split.
  - simpl.
    destruct (AddComponentAlias_as_Ok T last self0 w Hc)
      as (self1 & Hstep & HA & HL & HC).
    destruct (IH (let* self := m in
                  AddComponentAlias_as T (LastAddedComponentHash self) self)
                 self1) as (self' & Hfold & HA' & HL' & HC').
    + unfold bind. by rewrite Hm, Hl.
    + by rewrite HA.
    + by apply HC.
    + exists self'. split; [done |]. split; [done |].
      split; [by rewrite HL' |]. intros key. by rewrite HC', HC.
Qed.

Lemma lxor_below (a b : N) n :
  (a < 2 ^ n → b < 2 ^ n → N.lxor a b < 2 ^ n)%N.
Proof.
  intros Ha Hb.
  destruct (N.eq_dec (N.lxor a b) 0) as [-> | Hx].
  - apply N.neq_0_lt_0, N.pow_nonzero. done.
  - apply N.log2_lt_pow2; [lia |].
    eapply N.le_lt_trans; [apply N.log2_lxor |].
    apply N.max_lub_lt.
    + destruct (N.eq_dec a 0) as [-> | Ha0].
      * simpl. destruct (N.eq_dec n 0) as [-> | ?]; [| lia].
        simpl in Ha, Hb. assert (a' : b = 0%N) by lia. subst. done.
      * apply N.log2_lt_pow2; lia.
    + destruct (N.eq_dec b 0) as [-> | Hb0].
      * simpl. destruct (N.eq_dec n 0) as [-> | ?]; [| lia].
        simpl in Ha, Hb. assert (a' : a = 0%N) by lia. subst. done.
      * apply N.log2_lt_pow2; lia.
Qed.

End AddAliasFacts.

(** X12. [AddAlias] fails, with its message, when no component was added
    last (the hash is zero or has no component).  Otherwise it succeeds
    for any list of types, calls nothing, and keeps the last added hash,
    the logistics and the set of held components. *)
Theorem AddAlias_needs_component (Ts : list CppType) (self : IComposable)
    (w : World) :
  (LastAddedComponentHash self = 0%N ∨
   Components self !! LastAddedComponentHash self = None →
   Composition.AddAlias Ts self w
     = Fatal "Component aliases were listed, but no components were added before.") ∧
  (LastAddedComponentHash self ≠ 0%N →
   is_Some (Components self !! LastAddedComponentHash self) →
   ∃ self',
     Composition.AddAlias Ts self w = Ok self' w ∧
     LastAddedComponentHash self' = LastAddedComponentHash self ∧
     ComponentLogistics self' = ComponentLogistics self ∧
     ∀ key, is_Some (Components self' !! key)
            ↔ is_Some (Components self !! key)).
Proof.
  split; [apply AddAlias_guard |].
  intros Hlast Hheld. unfold Composition.AddAlias.
  rewrite (bind_Ok _ _ tt w w).
  - by apply (AddAlias_fold_Ok Ts (ret self) self).
  - apply N.eqb_neq in Hlast. rewrite Hlast.
    by rewrite (proj2 (Contains_true _ _) Hheld).
Qed.

(** X18. [GetTypeHash] agrees on types that [operator ==] holds equal, and
    fits 32 bits. *)
Theorem GetTypeHash_contract (a b : FType) :
  (FType_eqb a b = true → GetTypeHash a = GetTypeHash b) ∧
  (GetTypeHash a < 2 ^ 32)%N.
Proof.
  split.
  - unfold FType_eqb, GetTypeHash. by intros ->%N.eqb_eq.
  - unfold GetTypeHash. apply lxor_below; apply N.mod_lt; done.
Qed.

Section CopyLookupFacts.

Lemma FAny_copy_fields a b w w' :
  IsValid a = true →
  FAny_copy a w = Ok b w' →
  Storage b ≠ nullptr ∧ MainType b = MainType a ∧
  ValidTypes b = ValidTypes a ∧ CopyConstruct b = CopyConstruct a ∧
  Destruct b = Destruct a.
Proof.
  intros Hvalid Hcopy.
  destruct (CopyConstruct a) as [c |] eqn:Hc.
  - rewrite (FAny_copy_valid _ c) in Hcopy by done.
    destruct (Fac_CopyConstruct _ _ _) as [p w1].
    destruct (Z.eqb_spec p 0) as [| Hp]; [done |].
    injection Hcopy as <- _. by rewrite Hc.
  - unfold FAny_copy in Hcopy. by rewrite Hvalid, Hc in Hcopy.
Qed.

Lemma copy_of_TryGet a b U :
  copy_of a b → Any.TryGet U b ≠ nullptr ↔ Any.TryGet U a ≠ nullptr.
Proof.
  intros (w1 & w2 & Hcopy). destruct (IsValid a) eqn:Hvalid.
  - destruct (FAny_copy_fields a b w1 w2 Hvalid Hcopy) as (Hb & _ & Hv & _).
    assert (Ha : Storage a ≠ 0).
    { unfold IsValid in Hvalid. by apply negb_true_iff, Z.eqb_neq in Hvalid. }
    unfold Any.TryGet. rewrite Hv. by destruct (TSet_Contains _ _).
  - rewrite FAny_copy_invalid in Hcopy by done. injection Hcopy as <- _.
    unfold IsValid in Hvalid. apply negb_false_iff, Z.eqb_eq in Hvalid.
    unfold Any.TryGet. rewrite Hvalid. simpl.
    by destruct (TSet_Contains _ _).
Qed.

Lemma head_components_of T c :
  default nullptr (head (components_of T c)) ≠ nullptr ↔
  ∃ a, a ∈ held (TTypeHash T) c ∧ Any.TryGet T a ≠ nullptr.
Proof.
  split.
  - destruct (components_of T c) as [| p l] eqn:Hl; [done |]. simpl.
    intros Hp. assert (Hin : p ∈ components_of T c) by (rewrite Hl; left).
    apply elem_of_components_of in Hin as (_ & a & Ha & <-). eauto.
  - intros (a & Ha & Hp).
    assert (Hin : Any.TryGet T a ∈ components_of T c)
      by (apply elem_of_components_of; eauto).
    destruct (components_of T c) as [| q l] eqn:Hl;
      [by apply elem_of_nil in Hin |].
    simpl. assert (Hq : q ∈ components_of T c) by (rewrite Hl; left).
    by apply elem_of_components_of in Hq as [Hq _].
Qed.

End CopyLookupFacts.

(** X21. A copy-constructed composable answers [TryGet<T>()] with a
    component exactly for the types its source does. *)
Theorem IComposable_copy_lookups (this : ptr) (other self : IComposable)
    (w w' : World) (T : CppType) :
  IComposable_copy this other w = Ok self w' →
  ∃ found found' c c',
    Composition.TryGet T other = (Some found, c) ∧
    Composition.TryGet T self = (Some found', c') ∧
    (found' ≠ nullptr ↔ found ≠ nullptr).
Proof.
  intros Hcopy.
  assert (Hfields :
    (∀ key,
       (Components other !! key = None → Components self !! key = None) ∧
       (∀ a, Components other !! key = Some a →
          ∃ b, Components self !! key = Some b ∧ copy_of a b)) ∧
    ComponentAliases self = ComponentAliases other).
  { revert Hcopy. unfold IComposable_copy, bind.
    destruct (TMap_copy (Components_order other) (Components other) w)
      as [components w1 |] eqn:Hmap; [| done].
    destruct (NotifyCopyComponents _ _ _ _); [| done].
    intros [= <- _]. simpl. split; [| done].
    by apply (TMap_copy_Ok _ _ _ _ _ Hmap). }
  destruct Hfields as (Hkeys & Haliases).
  destruct (TryGet_held T other) as (c & Htry & _).
  destruct (TryGet_held T self) as (c' & Htry' & _).
  eexists _, _, c, c'. split; [exact Htry |]. split; [exact Htry' |].
  rewrite !head_components_of. split.
  - intros (b & Hb & Hp). apply elem_of_held in Hb as (i & Hi & Hwhere).
    destruct (Components other !! i) as [a |] eqn:Ha.
    + destruct (proj2 (Hkeys i) a Ha) as (b' & Hb' & Hcopied).
      rewrite Hi in Hb'. injection Hb' as <-.
      exists a. split; [| by apply (copy_of_TryGet a b T)].
      apply elem_of_held. exists i. split; [done |].
      unfold listed in *. by rewrite <- Haliases.
    + rewrite (proj1 (Hkeys i) Ha) in Hi. done.
  - intros (a & Ha & Hp). apply elem_of_held in Ha as (i & Hi & Hwhere).
    destruct (proj2 (Hkeys i) a Hi) as (b & Hb & Hcopied).
    exists b. split; [| by apply (copy_of_TryGet a b T)].
    apply elem_of_held. exists i. split; [done |].
    unfold listed in *. by rewrite Haliases.
Qed.

(** The order lists name every key of their map once on every composable
    built through the interface: the walk of a map then is the list of
    its keys, oldest first, each with its value ([TMap_range_ordered]). *)
Section OrderFacts.

Lemma TMap_ordered_replace {V} (keys : list N) (m : gmap N V) key value :
  is_Some (m !! key) →
  TMap_ordered keys m → TMap_ordered keys (<[key := value]> m).
Proof.
  intros Hin Hordered.
  assert (Hadd := TMap_ordered_Add keys m key value Hordered).
  unfold TMap_Add_order, Contains in Hadd.
  by rewrite bool_decide_eq_true_2 in Hadd.
Qed.

Lemma ordered_default : ordered IComposable_default.
Proof. split; apply TMap_ordered_empty. Qed.

Lemma ordered_AddComponentAlias : aliasing_stable ordered.
Proof.
  intros mainType validAs c Hordered. unfold AddComponentAlias.
  by destruct (ComponentAliases c !! validAs).
Qed.

Lemma ordered_AddComponent this T p fac self w self' w' :
  ordered self →
  AddComponent this T p fac self w = Ok self' w' →
  ordered self'.
Proof.
  intros [HC HL] Hadd.
  destruct (AddComponent_Ok_inv _ _ _ _ _ _ _ _ Hadd) as [Hp Hexact].
  destruct (AddComponent_shape this T p fac self w Hp Hexact)
    as (boxed & w1 & _ & Hshape).
  rewrite Hadd in Hshape. injection Hshape as -> _.
  set (c0 := set_LastAddedComponentHash _ _).
  set (c1 := if CHasBases T then _ else c0).
  assert (Hc1 : ordered c1 ∧
                Components c1
                  = <[TTypeHash T := FAny_ctor T p fac]> (Components self)).
  { subst c1. destruct (CHasBases T).
    - apply alias_bases_stable.
      + intros m v c [Hc <-]. split; [by apply ordered_AddComponentAlias |].
        by destruct (AddComponentAlias_keeps m v c) as (-> & _).
      + split; [| done]. split; [| done]. by apply TMap_ordered_Add.
    - split; [| done]. split; [| done]. by apply TMap_ordered_Add. }
  destruct Hc1 as [[HC1 HL1] Heq].
  assert (Hc2 : ordered (set_Components
                           (<[TTypeHash T := boxed]> (Components self)) c1)).
  { split; [| done]. cbn [Components Components_order set_Components].
    rewrite <- (insert_insert_eq (Components self) (TTypeHash T)
                  boxed (FAny_ctor T p fac)), <- Heq.
    apply TMap_ordered_replace; [| done].
    rewrite Heq, lookup_insert_eq. eauto. }
  destruct (registers_logistics T); [| done].
  destruct Hc2 as [HC2 HL2]. split; [done |].
  by apply TMap_ordered_Add.
Qed.

Lemma ordered_copy this other w self w' :
  ordered other →
  IComposable_copy this other w = Ok self w' →
  ordered self.
Proof.
  intros [[Hnodup HC] HL]. unfold IComposable_copy, bind.
  destruct (TMap_copy (Components_order other) (Components other) w)
    as [components w1 |] eqn:Hmap; [| done].
  destruct (NotifyCopyComponents _ _ _ _); [| done].
  intros [= <- _]. split; [| done]. split; [done |].
  cbn [Components Components_order]. intros key. rewrite HC.
  destruct (TMap_copy_Ok _ _ _ _ _ Hmap key) as [Hnone Hsome].
  destruct (Components other !! key) as [held |].
  - destruct (Hsome held eq_refl) as (b & -> & _). split; eauto.
  - by rewrite Hnone.
Qed.

Lemma ordered_move this other_addr other w self other' w' :
  ordered other →
  IComposable_move this other_addr other w = Ok (self, other') w' →
  ordered self ∧ ordered other'.
Proof.
  intros Hordered. unfold IComposable_move, NotifyMoveComponents.
  destruct (decide (this = other_addr)) as [| _].
  - intros [= <- <- _]. split; [done |]. split; apply TMap_ordered_empty.
  - rewrite (bind_Ok _ _ _ _ _ (for_each_Move_lambda _ this w)).
    intros [= <- <- _]. split; [done |]. split; apply TMap_ordered_empty.
Qed.

Lemma ordered_AddComponentAlias_as ValidAs mainType self w self' w' :
  ordered self →
  AddComponentAlias_as ValidAs mainType self w = Ok self' w' →
  ordered self'.
Proof.
  intros [HC HL]. unfold AddComponentAlias_as, bind, TMap_at.
  destruct (Components self !! mainType) as [boxed |] eqn:Hboxed; [| done].
  simpl. intros [= <- _].
  set (c0 := set_Components _ self).
  assert (Hc0 : ordered c0).
  { split; [| done]. apply TMap_ordered_replace; [| done].
    rewrite Hboxed. eauto. }
  destruct (CHasBases ValidAs).
  - apply alias_bases_stable; [apply ordered_AddComponentAlias |].
    by apply ordered_AddComponentAlias.
  - by apply ordered_AddComponentAlias.
Qed.

Lemma ordered_AddAlias ValidAs self w self' w' :
  ordered self →
  Composition.AddAlias ValidAs self w = Ok self' w' →
  ordered self'.
Proof.
  intros Hordered. unfold Composition.AddAlias, bind at 1.
  destruct (ASSERT_CRASH _ _ w) as [[] w1 |]; [| done].
  assert (Hfold : ∀ (m : M IComposable),
    (∀ c w2 w3, m w2 = Ok c w3 → ordered c) →
    foldl (λ acc T, let* self0 := acc in
                    AddComponentAlias_as T (LastAddedComponentHash self0) self0)
          m ValidAs w1 = Ok self' w' →
    ordered self').
  { induction ValidAs as [| T Ts IH]; intros m Hm; simpl.
    - apply Hm.
    - apply IH. intros c w2 w3. unfold bind.
      destruct (m w2) as [c0 w4 |] eqn:Hstep; [| done].
      apply ordered_AddComponentAlias_as. by apply (Hm _ _ _ Hstep). }
  apply Hfold. by intros c w2 w3 [= <- _].
Qed.

End OrderFacts.

(** X22. Move construction (of an object other than the source) from a
    composable whose logistics are bound to its own components, as
    [AddComponent] leaves them, cannot fail.  It calls [OnMovedAt] in the
    order the logistics were added, and nothing else; every move-aware
    component with logistics is now held by the new owner and is the
    receiver of exactly one of these calls, with the new owner as
    argument.  The new owner is what the source was; the source is left
    with [Components], [ComponentLogistics] and [ComponentAliases] empty
    and [LastAddedComponentHash] zero: it holds no component. *)
Theorem IComposable_move_notifies_held (this other_addr : ptr)
    (other : IComposable) (w : World) :
  this ≠ other_addr →
  logistics_keyed other →
  logistics_bound other →
  let emitted :=
    flat_map (move_calls this)
      (TMap_range (ComponentLogistics_order other)
         (ComponentLogistics other)) in
  ∃ self other',
    IComposable_move this other_addr other w
      = Ok (self, other')
           {| NextAlloc := NextAlloc w; Trace := Trace w ++ emitted |} ∧
    (∀ key logistics,
       ComponentLogistics other !! key = Some logistics →
       CMoveAwareComponent (log_MainType logistics) = true →
       ∃ a, Components self !! key = Some a ∧
            count_occ Event_eq_dec emitted
              (EvOnMovedAt key (Storage a) this) = 1%nat) ∧
    (∀ e, e ∈ emitted → ∃ T p, e = EvOnMovedAt T p this) ∧
    self = other ∧
    Components other' = ∅ ∧
    ComponentLogistics other' = ∅ ∧
    ComponentAliases other' = ∅ ∧
    LastAddedComponentHash other' = 0%N ∧
    size (Components other') = 0%nat.
Proof.
  intros Hdistinct Hkeyed Hbound emitted.
  destruct (IComposable_move_Ok this other_addr other w Hdistinct)
    as (other' & Hmove & HC & HL & HA & Hlast).
  exists other, other'. split; [exact Hmove |].
  repeat split; try done.
  - intros key logistics Hlookup Haware.
    destruct (Hbound key logistics Hlookup) as (a & Ha & Hstorage).
    exists a. split; [done |]. rewrite Hstorage.
    apply count_move_calls_entry; try done.
    + apply NoDup_fst_TMap_range.
    + intros k lg Hin. apply Hkeyed. by apply elem_of_TMap_range in Hin.
    + by apply elem_of_TMap_range.
  - apply move_calls_shape.
  - by rewrite HC.
Qed.

(** X23. The [Move] closures run in the order the components were added,
    not in the order of the hashes: with [FOtherAwareComponent] (hash 41)
    added before [FAwareComponent] (hash 40), move construction calls
    [OnMovedAt] on the former first. *)
Example IComposable_move_insertion_order :
  ∃ self other',
    IComposable_move 2 1 Examples.composableWithTwoAware Examples.w0
      = Ok (self, other')
           {| NextAlloc := 1000;
              Trace := [EvOnMovedAt 41 141 2; EvOnMovedAt 40 100 2] |}.
Proof.
  destruct (IComposable_move_Ok 2 1 Examples.composableWithTwoAware
              Examples.w0 ltac:(lia)) as (other' & Hmove & _).
  exists Examples.composableWithTwoAware, other'. rewrite Hmove.
  reflexivity.
Qed.

(** X24. Copy construction copies the components, and then runs the
    [Copy] closures, in the order the components were added: the first
    component added is the first to be copy constructed, so that its copy
    gets the first address handed out. *)
Example IComposable_copy_insertion_order :
  ∃ copy w',
    IComposable_copy 2 Examples.composableWithTwoAware Examples.w0
      = Ok copy w' ∧
    Storage <$> (Components copy !! 41%N) = Some 1000 ∧
    Storage <$> (Components copy !! 40%N) = Some 1001 ∧
    Trace w' = [EvCopyConstructed 41 141 1000; EvCopyConstructed 40 100 1001;
                EvOnCopiedAt 41 141 2 141; EvOnCopiedAt 40 100 2 100].
Proof.
  destruct (IComposable_copy 2 Examples.composableWithTwoAware Examples.w0)
    as [copy w' |] eqn:Hcopy; [| by vm_compute in Hcopy].
  exists copy, w'. split; [reflexivity |].
  assert (Hresult :
    match IComposable_copy 2 Examples.composableWithTwoAware Examples.w0 with
    | Ok c w => (Storage <$> (Components c !! 41%N),
                 Storage <$> (Components c !! 40%N), Trace w)
    | Fatal _ => (None, None, [])
    end = (Some 1000, Some 1001,
           [EvCopyConstructed 41 141 1000; EvCopyConstructed 40 100 1001;
            EvOnCopiedAt 41 141 2 141; EvOnCopiedAt 40 100 2 100]))
    by (vm_compute; reflexivity).
  rewrite Hcopy in Hresult. by injection Hresult as -> -> ->.
Qed.

(** ** Instances of the further properties on the sample objects *)

Lemma FAny_copy_same_types_witness :
  IsValid Examples.boxedIntrusive = true ∧
  ∃ b w', FAny_copy Examples.boxedIntrusive Examples.w0 = Ok b w' ∧
          Any.TryGet Examples.IBaseA b ≠ nullptr.
Proof.
  assert (Hvalid : IsValid Examples.boxedIntrusive = true)
    by (vm_compute; reflexivity).
  split; [exact Hvalid |].
  destruct (FAny_copy Examples.boxedIntrusive Examples.w0) as [b w' |] eqn:Hcopy;
    [| vm_compute in Hcopy; discriminate].
  exists b, w'. split; [reflexivity |].
  destruct (FAny_copy_same_types _ _ _ _ Hvalid Hcopy)
    as (_ & _ & _ & _ & _ & Hsame).
  apply Hsame. vm_compute. discriminate.
Defined.

Lemma FAny_reachable_typed_bases_witness :
  FAny_reachable Examples.boxedIntrusive ∧
  Any.TryGet Examples.IBaseB Examples.boxedIntrusive
    = Storage Examples.boxedIntrusive.
Proof.
  assert (Hreach : FAny_reachable Examples.boxedIntrusive) by apply reach_ctor.
  split; [exact Hreach |].
  destruct (FAny_ctor_closures Examples.FIntrusiveInherit 100
              (DefaultFacilities Examples.FIntrusiveInherit)) as (_ & Hc & _).
  destruct (FAny_reachable_typed_bases Examples.boxedIntrusive _ Hreach Hc)
    as (_ & _ & _ & Hbases).
  apply Hbases. apply list_elem_of_In. vm_compute. tauto.
Defined.

Lemma FAny_copy_then_destroy_witness :
  FAny_reachable Examples.boxedIntrusive ∧
  IsValid Examples.boxedIntrusive = true ∧
  ∃ b w' w'',
    FAny_copy Examples.boxedIntrusive Examples.w0 = Ok b w' ∧
    FAny_dtor b w' = Ok FAny_default w''.
Proof.
  assert (Hreach : FAny_reachable Examples.boxedIntrusive) by apply reach_ctor.
  assert (Hvalid : IsValid Examples.boxedIntrusive = true)
    by (vm_compute; reflexivity).
  split; [exact Hreach |]. split; [exact Hvalid |].
  destruct (FAny_copy Examples.boxedIntrusive Examples.w0) as [b w' |] eqn:Hcopy;
    [| vm_compute in Hcopy; discriminate].
  destruct (FAny_copy_then_destroy _ _ _ _ Hreach Hvalid Hcopy)
    as (c & _ & _ & Hdtor).
  exists b, w'. eexists. split; [reflexivity | exact Hdtor].
Defined.

Lemma AddComponent_then_TryGet_witness :
  OnComponentAdded IComposable_default = None ∧
  ∃ self' w',
    AddComponent 1 Examples.FSimpleComponent 102
      (DefaultFacilities Examples.FSimpleComponent)
      IComposable_default Examples.w0 = Ok self' w' ∧
    (Composition.TryGet Examples.FSimpleComponent self').1 = Some 102.
Proof.
  split; [reflexivity |].
  destruct (AddComponent 1 Examples.FSimpleComponent 102
              (DefaultFacilities Examples.FSimpleComponent)
              IComposable_default Examples.w0) as [self' w' |] eqn:Hadd;
    [| vm_compute in Hadd; discriminate].
  exists self', w'. split; [reflexivity |].
  exact (proj1 (proj2 (AddComponent_then_TryGet _ _ _ _ _ _ _ _ 
             (eq_refl : OnComponentAdded IComposable_default = None) Hadd))).
Defined.

Lemma AddComponent_callbacks_witness :
  OnComponentAdded IComposable_default = None ∧
  ∃ self' w',
    AddComponent 1 Examples.FAwareComponent 100
      (DefaultFacilities Examples.FAwareComponent)
      IComposable_default Examples.w0 = Ok self' w' ∧
    Trace w' = [EvOnCreatedAt 40 100 1] ∧
    LastAddedComponentHash self' = 40%N.
Proof.
  split; [reflexivity |].
  destruct (AddComponent 1 Examples.FAwareComponent 100
              (DefaultFacilities Examples.FAwareComponent)
              IComposable_default Examples.w0) as [self' w' |] eqn:Hadd;
    [| vm_compute in Hadd; discriminate].
  exists self', w'. split; [reflexivity |].
  destruct (AddComponent_callbacks _ _ _ _ _ _ _ _ 
             (eq_refl : OnComponentAdded IComposable_default = None) Hadd)
    as (Hw & _ & Hlast).
  split; [by rewrite Hw | exact Hlast].
Defined.

Lemma AddComponent_registers_bases_witness :
  OnComponentAdded IComposable_default = None ∧
  Examples.IBaseA ∈ ExplicitBases Examples.FIntrusiveInherit ∧
  ∃ self' w' ptrs c,
    AddComponent 1 Examples.FIntrusiveInherit 101
      (DefaultFacilities Examples.FIntrusiveInherit)
      IComposable_default Examples.w0 = Ok self' w' ∧
    GetComponents Examples.IBaseA self' = (Some ptrs, c) ∧
    101 ∈ ptrs.
Proof.
  assert (Hbase : Examples.IBaseA ∈ ExplicitBases Examples.FIntrusiveInherit)
    by (apply list_elem_of_In; vm_compute; tauto).
  split; [reflexivity |]. split; [exact Hbase |].
  destruct (AddComponent 1 Examples.FIntrusiveInherit 101
              (DefaultFacilities Examples.FIntrusiveInherit)
              IComposable_default Examples.w0) as [self' w' |] eqn:Hadd;
    [| vm_compute in Hadd; discriminate].
  destruct (AddComponent_registers_bases _ _ _ _ _ _ _ _ _ 
             (eq_refl : OnComponentAdded IComposable_default = None) Hadd Hbase)
    as (ptrs & c & Hget & Hin).
  exists self', w', ptrs, c. split; [reflexivity |]. split; [exact Hget | exact Hin].
Defined.

Lemma AddComponent_keeps_lookups_witness :
  OnComponentAdded Examples.composableWithAware = None ∧
  ∃ self' w' before after c1 c2,
    AddComponent 1 Examples.FSimpleComponent 102
      (DefaultFacilities Examples.FSimpleComponent)
      Examples.composableWithAware Examples.w0 = Ok self' w' ∧
    GetComponents Examples.FAwareComponent Examples.composableWithAware
      = (Some before, c1) ∧
    GetComponents Examples.FAwareComponent self' = (Some after, c2) ∧
    ∀ q, q ∈ before → q ∈ after.
Proof.
  assert (Hhook : OnComponentAdded Examples.composableWithAware = None)
    by (vm_compute; reflexivity).
  split; [exact Hhook |].
  destruct (AddComponent 1 Examples.FSimpleComponent 102
              (DefaultFacilities Examples.FSimpleComponent)
              Examples.composableWithAware Examples.w0)
    as [self' w' |] eqn:Hadd; [| vm_compute in Hadd; discriminate].
  destruct (AddComponent_keeps_lookups 1 Examples.FSimpleComponent
              Examples.FAwareComponent _ _ _ _ _ _ Hhook Hadd)
    as (before & after & c1 & c2 & H1 & H2 & Hsub).
  exists self', w', before, after, c1, c2.
  split; [reflexivity |]. split; [exact H1 |]. split; [exact H2 | exact Hsub].
Defined.

Lemma lookup_miss_witness :
  Components Examples.composableWithAware
    !! TTypeHash Examples.FSimpleComponent = None ∧
  ComponentAliases Examples.composableWithAware
    !! TTypeHash Examples.FSimpleComponent = None ∧
  Get Examples.FSimpleComponent Examples.composableWithAware Examples.w0
    = Fatal "Component FSimpleComponent was unavailable.".
Proof.
  assert (Hexact : Components Examples.composableWithAware
                     !! TTypeHash Examples.FSimpleComponent = None)
    by (vm_compute; reflexivity).
  assert (Halias : ComponentAliases Examples.composableWithAware
                     !! TTypeHash Examples.FSimpleComponent = None)
    by (vm_compute; reflexivity).
  split; [exact Hexact |]. split; [exact Halias |].
  exact (proj2 (proj2 (lookup_miss Examples.FSimpleComponent
                         Examples.composableWithAware Examples.w0
                         Hexact Halias))).
Defined.

Lemma AddAlias_needs_component_witness :
  Composition.AddAlias [Examples.IBaseA] IComposable_default Examples.w0
    = Fatal "Component aliases were listed, but no components were added before." ∧
  ∃ self',
    Composition.AddAlias [Examples.IBaseA] Examples.composableWithAware
      Examples.w0 = Ok self' Examples.w0.
Proof.
  split.
  - apply (proj1 (AddAlias_needs_component [Examples.IBaseA]
                    IComposable_default Examples.w0)).
    left. reflexivity.
  - destruct (proj2 (AddAlias_needs_component [Examples.IBaseA]
                       Examples.composableWithAware Examples.w0))
      as (self' & Hrun & _).
    + vm_compute. discriminate.
    + vm_compute. eexists. reflexivity.
    + exists self'. exact Hrun.
Defined.

Lemma AddComponent_then_AddAlias_witness :
  OnComponentAdded IComposable_default = None ∧
  TTypeHash Examples.FSimpleComponent ≠ 0%N ∧
  ∃ self' w' self'',
    AddComponent 1 Examples.FSimpleComponent 102
      (DefaultFacilities Examples.FSimpleComponent)
      IComposable_default Examples.w0 = Ok self' w' ∧
    Composition.AddAlias [Examples.IBaseA] self' w' = Ok self'' w' ∧
    (Composition.TryGet Examples.FSimpleComponent self'').1 = Some 102.
Proof.
  assert (Hhash : TTypeHash Examples.FSimpleComponent ≠ 0%N)
    by (vm_compute; discriminate).
  split; [reflexivity |]. split; [exact Hhash |].
  destruct (AddComponent 1 Examples.FSimpleComponent 102
              (DefaultFacilities Examples.FSimpleComponent)
              IComposable_default Examples.w0) as [self' w' |] eqn:Hadd;
    [| vm_compute in Hadd; discriminate].
  destruct (AddComponent_then_AddAlias 1 Examples.FSimpleComponent
              Examples.IBaseA _ _ _ _ _ _ 
             (eq_refl : OnComponentAdded IComposable_default = None) Hadd Hhash)
    as (self'' & Hrun & _ & Htry).
  exists self', w', self''.
  split; [reflexivity |]. split; [exact Hrun | exact Htry].
Defined.

Lemma IComposable_copy_components_witness :
  ∃ self w',
    IComposable_copy 2 Examples.composableWithTwo Examples.w0 = Ok self w' ∧
    ComponentAliases self = ComponentAliases Examples.composableWithTwo ∧
    Components self !! 50%N = None.
Proof.
  destruct (IComposable_copy 2 Examples.composableWithTwo Examples.w0)
    as [self w' |] eqn:Hcopy; [| vm_compute in Hcopy; discriminate].
  destruct (IComposable_copy_components _ _ _ _ _ Hcopy)
    as (Hkeys & Haliases & _).
  exists self, w'. split; [reflexivity |]. split; [exact Haliases |].
  apply (proj1 (Hkeys 50%N)). vm_compute. reflexivity.
Defined.

Lemma IComposable_copy_noncopyable_witness :
  Components Examples.composableWithNonCopyable !! 50%N
    = Some (FAny_ctor Examples.FNonCopyable 104
              (DefaultFacilities Examples.FNonCopyable)) ∧
  is_fatal (IComposable_copy 2 Examples.composableWithNonCopyable Examples.w0).
Proof.
  assert (Hheld : Components Examples.composableWithNonCopyable !! 50%N
                  = Some (FAny_ctor Examples.FNonCopyable 104
                            (DefaultFacilities Examples.FNonCopyable)))
    by (vm_compute; reflexivity).
  split; [exact Hheld |].
  destruct (FAny_ctor_closures Examples.FNonCopyable 104
              (DefaultFacilities Examples.FNonCopyable)) as (_ & Hc & _).
  apply (IComposable_copy_noncopyable 2 _ 50%N _ Examples.FNonCopyable
           Examples.w0 Hheld).
  - vm_compute. reflexivity.
  - exact Hc.
  - reflexivity.
Defined.

Lemma IComposable_move_lookups_witness :
  2 ≠ 1 ∧
  ∃ self other' w',
    IComposable_move 2 1 Examples.composableWithAware Examples.w0
      = Ok (self, other') w' ∧
    self = Examples.composableWithAware ∧
    Composition.TryGet Examples.FAwareComponent other'
      = (Some nullptr, other').
Proof.
  assert (Hdistinct : 2 ≠ 1) by lia.
  split; [exact Hdistinct |].
  destruct (IComposable_move 2 1 Examples.composableWithAware Examples.w0)
    as [[self other'] w' |] eqn:Hmove; [| vm_compute in Hmove; discriminate].
  destruct (IComposable_move_lookups _ _ _ _ _ _ _ Hdistinct Hmove)
    as (Hself & Hlookups & _).
  exists self, other', w'. split; [reflexivity |]. split; [exact Hself |].
  exact (proj2 (Hlookups Examples.FAwareComponent)).
Defined.

Lemma IsCompatibleWith_explicit_base_witness :
  Examples.IBaseA ∈ take 64 (ExplicitBases Examples.FIntrusiveInherit) ∧
  IsCompatibleWith (TTypeOf Examples.FIntrusiveInherit)
    (TTypeOf Examples.IBaseA) = true.
Proof.
  assert (Hbase : Examples.IBaseA
                    ∈ take 64 (ExplicitBases Examples.FIntrusiveInherit))
    by (apply list_elem_of_In; vm_compute; tauto).
  split; [exact Hbase |].
  exact (proj1 (IsCompatibleWith_explicit_base _ _ Hbase)).
Defined.

Lemma IComposable_copy_lookups_witness :
  ∃ self w' found found' c c',
    IComposable_copy 2 Examples.composableWithAware Examples.w0 = Ok self w' ∧
    Composition.TryGet Examples.FAwareComponent Examples.composableWithAware
      = (Some found, c) ∧
    Composition.TryGet Examples.FAwareComponent self = (Some found', c') ∧
    (found' ≠ nullptr ↔ found ≠ nullptr).
Proof.
  destruct (IComposable_copy 2 Examples.composableWithAware Examples.w0)
    as [self w' |] eqn:Hcopy; [| vm_compute in Hcopy; discriminate].
  destruct (IComposable_copy_lookups 2 _ _ _ _ Examples.FAwareComponent Hcopy)
    as (found & found' & c & c' & H1 & H2 & Hiff).
  exists self, w', found, found', c, c'.
  split; [reflexivity |]. split; [exact H1 |]. split; [exact H2 | exact Hiff].
Defined.

Lemma IComposable_move_notifies_held_witness :
  2 ≠ 1 ∧
  logistics_keyed Examples.composableWithAware ∧
  logistics_bound Examples.composableWithAware ∧
  ∃ self other',
    IComposable_move 2 1 Examples.composableWithAware Examples.w0
      = Ok (self, other')
           {| NextAlloc := 1000; Trace := [EvOnMovedAt 40 100 2] |} ∧
    Storage <$> (Components self !! 40%N) = Some 100 ∧
    Components other' = ∅.
Proof.
  assert (Hdistinct : 2 ≠ 1) by lia.
  assert (Hkeyed : logistics_keyed Examples.composableWithAware).
  { unfold Examples.composableWithAware.
    destruct (Examples.withAware Examples.w0) as [c w |] eqn:Hbuilt.
    - exact (logistics_keyed_AddComponent _ _ _ _ _ _ _ _
               logistics_keyed_default Hbuilt).
    - exact logistics_keyed_default. }
  assert (Hbound : logistics_bound Examples.composableWithAware).
  { unfold Examples.composableWithAware.
    destruct (Examples.withAware Examples.w0) as [c w |] eqn:Hbuilt.
    - exact (logistics_bound_AddComponent _ _ _ _ _ _ _ _
               (eq_refl : OnComponentAdded IComposable_default = None)
               logistics_bound_default Hbuilt).
    - exact logistics_bound_default. }
  split; [exact Hdistinct |]. split; [exact Hkeyed |].
  split; [exact Hbound |].
  destruct (IComposable_move_notifies_held 2 1 Examples.composableWithAware
              Examples.w0 Hdistinct Hkeyed Hbound)
    as (self & other' & Hmove & _ & _ & -> & Hempty & _).
  exists Examples.composableWithAware, other'. split; [exact Hmove |].
  split; [vm_compute; reflexivity | exact Hempty].
Defined.
